(** * CustomNN: a two-layer feed-forward inference engine

    A shallow embedding of [Miko/neural_network.cpp] (namespace [CustomNN]):
    the activation functions, the matrix primitives, the dense layer and the
    [NeuralNetwork] class, and of the sliding window of the thermal detector
    that feeds it, together with the properties of its specification.

    - [float] buffers live in a block memory; a [float*] is the block it
      points into (every call site passes the address of the first element of
      an array).  Two pointers alias exactly when they name the same block.
    - An access outside the bounds of a block is undefined behaviour in C++;
      here it stops the computation with a [Fault] that names the access.
    - The arithmetic of [float] is an interface ([FloatArith], [Libm]); the
      code runs on its instance IEEE 754 binary32 ([SpecFloat], round to
      nearest even, every operation rounded on its own: no fused
      multiply-add, no excess precision).  What rounding does to a result is
      measured on the real number a float stands for ([B2R]). *)

From Stdlib Require Import ZArith NArith Lia List Reals Lra.
From Stdlib Require Import Floats.SpecFloat.
From stdpp Require Import base list option numbers.

Open Scope nat_scope.

(** ** The arithmetic of [float] *)

(** The operators the source applies to [float] values: the literal [0.0f],
    [+], [-], [*], [/] and the comparison [>]. *)
Class FloatArith (F : Type) := {
  f_zero : F;
  f_add : F → F → F;
  f_sub : F → F → F;
  f_mul : F → F → F;
  f_div : F → F → F;
  f_gt : F → F → bool;
}.

(** [expf] of <cmath>: it belongs to the C library, not to the repository. *)
Class Libm (F : Type) := { f_expf : F → F }.

(** ** [size_t] *)

(** The target is the RP2040 (ILP32): [size_t] has 32 bits and its arithmetic
    wraps around.  Loop counters stay below their bound and cannot wrap; the
    index [i * cols + j] is the one computed value. *)
Definition SIZE_BITS : N := 32.

Definition size_wrap (n : N) : nat := N.to_nat (n mod 2 ^ SIZE_BITS).

Definition weight_index (i cols j : nat) : nat :=
  size_wrap (N.of_nat i * N.of_nat cols + N.of_nat j).

(** ** Memory, faults and the computation monad *)

(** A [float*]: the block it points into. *)
Abbreviation ptr := nat (only parsing).

(** One block per array object. *)
Abbreviation memory F := (list (list F)) (only parsing).

Inductive fault :=
| OobRead (p : ptr) (i : nat)
| OobWrite (p : ptr) (i : nat)
| BadFree (p : ptr).

Inductive outcome (S A : Type) :=
| Ok (a : A) (m : S)
| Fault (f : fault).
Arguments Ok {S A} a m.
Arguments Fault {S A} f.

Section Machine.
Context {F : Type}.

Definition M (A : Type) : Type := memory F → outcome (memory F) A.

Definition ret {A} (a : A) : M A := λ m, Ok a m.

Definition bind {A B} (c : M A) (k : A → M B) : M B :=
  λ m, match c m with
       | Ok a m' => k a m'
       | Fault f => Fault f
       end.

(** [p[i]] as an rvalue. *)
Definition load (p : ptr) (i : nat) : M F :=
  λ m, match m !! p ≫= (.!! i) with
       | Some x => Ok x m
       | None => Fault (OobRead p i)
       end.

(** [p[i] = v]. *)
Definition store (p : ptr) (i : nat) (v : F) : M unit :=
  λ m, match m !! p with
       | Some blk =>
           if decide (i < length blk) then Ok tt (<[p := <[i := v]> blk]> m)
           else Fault (OobWrite p i)
       | None => Fault (OobWrite p i)
       end.

(** A new array object of [n] floats (a local array, or storage obtained by
    [new]): a block on top of the others.  Its initial contents are
    indeterminate; [junk] is whatever the storage held. *)
Definition alloc (n : nat) (junk : nat → F) : M ptr :=
  λ m, Ok (length m) (m ++ [junk <$> seq 0 n]).

(** Leaving the scope of a local array. *)
Definition pop_frame (p : ptr) : M unit :=
  λ m, if decide (S p = length m) then Ok tt (take p m) else Fault (BadFree p).

End Machine.

Notation "'do' x <- c ; k" := (bind c (λ x, k))
  (at level 10, x name, c at level 100, k at level 200).

Section Loops.
Context {F : Type}.

(** [n] iterations of a loop body from counter value [i]; [a] holds the local
    variables the body updates. *)
Fixpoint for_loop {A} (n i : nat) (body : nat → A → M (F:=F) A) (a : A) : M A :=
  match n with
  | O => ret a
  | S k => do a' <- body i a ; for_loop k (S i) body a'
  end.

(** [for (size_t i = lo; i < hi; ++i) body]. *)
Definition for_range {A} (lo hi : nat) (body : nat → A → M (F:=F) A) (a : A) : M A :=
  for_loop (hi - lo) lo body a.

End Loops.

(** ** The source, function by function *)

Module Activation.
Section Activation.
Context {F : Type} {FA : FloatArith F} {LM : Libm F}.

(** One step of [relu]: [(x > 0.0f) ? x : 0.0f]. *)
Definition relu1 (x : F) : F := if f_gt x f_zero then x else f_zero.

Definition relu (data : ptr) (size : nat) : M (F:=F) unit :=
  for_range 0 size
    (λ i _, do x <- load data i ; store data i (relu1 x)) tt.

Definition softmax (data : ptr) (size : nat) : M (F:=F) unit :=
  (* Find max value for numerical stability *)
  do d0 <- load data 0 ;
  do max_val <- for_range 1 size
    (λ i max_val,
       do x <- load data i ;
       ret (if f_gt x max_val then x else max_val)) d0 ;
  (* Compute exp(x - max) and sum *)
  do sum <- for_range 0 size
    (λ i sum,
       do x <- load data i ;
       do _ <- store data i (f_expf (f_sub x max_val)) ;
       do y <- load data i ;
       ret (f_add sum y)) f_zero ;
  (* Normalize by sum *)
  for_range 0 size
    (λ i _, do x <- load data i ; store data i (f_div x sum)) tt.

End Activation.
End Activation.

Module MatrixOps.
Section MatrixOps.
Context {F : Type} {FA : FloatArith F}.

Definition matvec_multiply (weights input output : ptr) (rows cols : nat)
  : M (F:=F) unit :=
  (* Initialize output to zero *)
  do _ <- for_range 0 cols (λ j _, store output j f_zero) tt ;
  (* output[j] += weights[i * cols + j] * input[i] *)
  for_range 0 rows
    (λ i _,
       for_range 0 cols
         (λ j _,
            do o <- load output j ;
            do w <- load weights (weight_index i cols j) ;
            do x <- load input i ;
            store output j (f_add o (f_mul w x))) tt) tt.

Definition vector_add (a b output : ptr) (size : nat) : M (F:=F) unit :=
  for_range 0 size
    (λ i _,
       do x <- load a i ;
       do y <- load b i ;
       store output i (f_add x y)) tt.

Definition dense_forward (input weights bias output : ptr)
    (input_size output_size : nat) : M (F:=F) unit :=
  (* Step 1: output = weights^T * input *)
  do _ <- matvec_multiply weights input output input_size output_size ;
  (* Step 2: output[i] += bias[i] *)
  for_range 0 output_size
    (λ i _,
       do o <- load output i ;
       do b <- load bias i ;
       store output i (f_add o b)) tt.

End MatrixOps.
End MatrixOps.

(** The data members of [class NeuralNetwork].  [layer1_output_] is the
    embedded array [float layer1_output_[18]], named by its block. *)
Record NeuralNetwork := {
  layer1_weights_ : ptr;
  layer1_bias_ : ptr;
  layer1_input_size_ : nat;
  layer1_output_size_ : nat;
  layer2_weights_ : ptr;
  layer2_bias_ : ptr;
  layer2_input_size_ : nat;
  layer2_output_size_ : nat;
  layer1_output_ : ptr;
}.

(** Capacity of [layer1_output_]. *)
Definition HIDDEN_CAPACITY : nat := 18.

(** Length of the local array of [predict_class]. *)
Definition CLASS_BUFFER : nat := 3.

Module Network.
Section Network.
Context {F : Type} {FA : FloatArith F} {LM : Libm F}.

(** The constructor: the storage of the object is obtained (as [new] does),
    the members are initialised from the arguments and the intermediate
    buffer is cleared. *)
Definition construct (l1_weights l1_bias : ptr) (l1_in l1_out : nat)
    (l2_weights l2_bias : ptr) (l2_in l2_out : nat) (junk : nat → F)
  : M (F:=F) NeuralNetwork :=
  do this <- alloc HIDDEN_CAPACITY junk ;
  do _ <- for_range 0 18 (λ i _, store this i f_zero) tt ;
  ret {| layer1_weights_ := l1_weights; layer1_bias_ := l1_bias;
         layer1_input_size_ := l1_in; layer1_output_size_ := l1_out;
         layer2_weights_ := l2_weights; layer2_bias_ := l2_bias;
         layer2_input_size_ := l2_in; layer2_output_size_ := l2_out;
         layer1_output_ := this |}.

Definition predict (nn : NeuralNetwork) (input output : ptr) : M (F:=F) unit :=
  (* Layer 1: Dense + ReLU *)
  do _ <- MatrixOps.dense_forward input (layer1_weights_ nn) (layer1_bias_ nn)
            (layer1_output_ nn) (layer1_input_size_ nn) (layer1_output_size_ nn) ;
  do _ <- Activation.relu (layer1_output_ nn) (layer1_output_size_ nn) ;
  (* Layer 2: Dense + Softmax *)
  do _ <- MatrixOps.dense_forward (layer1_output_ nn) (layer2_weights_ nn)
            (layer2_bias_ nn) output (layer2_input_size_ nn) (layer2_output_size_ nn) ;
  Activation.softmax output (layer2_output_size_ nn).

(** [junk] is the indeterminate initial contents of [float output[3]]. *)
Definition predict_class (nn : NeuralNetwork) (input : ptr) (junk : nat → F)
  : M (F:=F) Z :=
  do output <- alloc CLASS_BUFFER junk ;
  do _ <- predict nn input output ;
  (* Find argmax *)
  do max_prob <- load output 0 ;
  do r <- for_range 1 3
    (λ i '(predicted_class, max_prob),
       do x <- load output i ;
       ret (if f_gt x max_prob then (Z.of_nat i, x)
            else (predicted_class, max_prob))) (0%Z, max_prob) ;
  do _ <- pop_frame output ;
  ret (fst r).

End Network.
End Network.

(** ** The sliding window of the thermal detector *)

(** [Miko - Thermal Anomaly Detector]: the window of the last readings that
    is the input of the network.  [temp_window] is the block of the global
    array [float temp_window[WINDOW_SIZE]]. *)
Module Thermal.
Section Thermal.
Context {F : Type}.

Definition WINDOW_SIZE : nat := 10.

Definition add_temperature_to_window (temp_window : ptr) (new_temp : F)
  : M (F:=F) unit :=
  (* Shift window left (discard oldest reading) *)
  do _ <- for_range 0 (WINDOW_SIZE - 1)
    (λ i _, do x <- load temp_window (i + 1) ; store temp_window i x) tt ;
  (* Add new reading at the end *)
  store temp_window (WINDOW_SIZE - 1) new_temp.


End Thermal.
End Thermal.

(** Folding a loop body over the elements [l] of a block, from index [i]. *)
Fixpoint scan {F A} (h : A → nat → F → A) (i : nat) (l : list F) (a : A) : A :=
  match l with
  | [] => a
  | x :: l' => scan h (S i) l' (h a i x)
  end.

(** ** The values the functions compute *)

Section Values.
Context {F : Type} {FA : FloatArith F} {LM : Libm F}.

(** The sum over [i < n] of [W[i * cols + j] * X[i]], accumulated from [0.0f]
    in increasing [i], as the doubly nested loop does for column [j]. *)
Fixpoint col_sum (W X : list F) (cols j n : nat) : F :=
  match n with
  | O => f_zero
  | S i => f_add (col_sum W X cols j i)
             (f_mul (nth (i * cols + j) W f_zero) (nth i X f_zero))
  end.

Definition matvec (W X : list F) (rows cols : nat) : list F :=
  (λ j, col_sum W X cols j rows) <$> seq 0 cols.

Definition dense (W B X : list F) (input_size output_size : nat) : list F :=
  (λ j, f_add (col_sum W X output_size j input_size) (nth j B f_zero))
    <$> seq 0 output_size.

(** The first element unless a strictly greater one comes later. *)
Definition running_max (mx : F) (l : list F) : F :=
  foldl (λ mx x, if f_gt x mx then x else mx) mx l.

Definition max_of (l : list F) : F :=
  match l with
  | [] => f_zero
  | x :: l' => running_max x l'
  end.

Definition float_sum (l : list F) : F := foldl f_add f_zero l.

Definition exp_shifted (l : list F) : list F :=
  (λ x, f_expf (f_sub x (max_of l))) <$> l.

Definition softmax_list (l : list F) : list F :=
  (λ y, f_div y (float_sum (exp_shifted l))) <$> exp_shifted l.

(** Index of the first maximum: the candidate is index 0 and a later index
    replaces it only when its element is strictly greater. *)
Definition argmax (l : list F) : Z :=
  match l with
  | [] => 0
  | x :: l' =>
      (scan (λ '(k, mx) i y, if f_gt y mx then (Z.of_nat i, y) else (k, mx))
         1 l' (0%Z, x)).1
  end.

(** The hidden activations and the class probabilities of a network with
    weight tables [W1], [W2] and biases [B1], [B2] on input [X]. *)
Definition hidden (W1 B1 X : list F) (n_in n_hidden : nat) : list F :=
  Activation.relu1 <$> dense W1 B1 X n_in n_hidden.

Definition forward (W1 B1 W2 B2 X : list F) (n_in n_hidden n_out : nat) : list F :=
  softmax_list (dense W2 B2 (hidden W1 B1 X n_in n_hidden) n_hidden n_out).

End Values.

(** ** IEEE 754 binary32 *)

Module Binary32.

(** The type [float]. *)
Abbreviation float32 := spec_float (only parsing).

Definition prec : Z := 24.
Definition emax : Z := 128.

(** The float nearest to [m * 2^e]. *)
Definition b32 (m e : Z) : float32 := binary_normalize prec emax m e false.

Definition b32_zero : float32 := S754_zero false.
Definition b32_one : float32 := Eval cbv in b32 1 0.

#[global] Instance arith : FloatArith float32 := {|
  f_zero := b32_zero;
  f_add := SFadd prec emax;
  f_sub := SFsub prec emax;
  f_mul := SFmul prec emax;
  f_div := SFdiv prec emax;
  f_gt := λ a b, SFltb b a;
|}.

Definition is_nan (x : float32) : bool :=
  match x with S754_nan => true | _ => false end.

Definition is_inf (x : float32) : bool :=
  match x with S754_infinity _ => true | _ => false end.

Definition is_zero (x : float32) : bool :=
  match x with S754_zero _ => true | _ => false end.

(** Neither a NaN nor an infinity. *)
Definition is_finite (x : float32) : bool := negb (is_nan x || is_inf x).

(** *** A reference [expf]

    The values at NaN, the infinities and the zeros are the ones Annex F of
    the C standard fixes.  Elsewhere the function is evaluated in binary64
    (argument reduction by [2^10], a Taylor polynomial, ten squarings) and
    rounded to binary32.  It serves to run the code on concrete buffers; the
    theorems about [expf] state the property of it they rely on. *)

Definition widen (x : float32) : spec_float :=
  match x with S754_finite s m e => binary_round 53 1024 s m e | _ => x end.

Definition narrow (x : spec_float) : float32 :=
  match x with S754_finite s m e => binary_round prec emax s m e | _ => x end.

Definition b64 (z : Z) : spec_float := binary_normalize 53 1024 z 0 false.

Fixpoint exp_poly (n : nat) (y acc : spec_float) : spec_float :=
  match n with
  | O => acc
  | S k =>
      exp_poly k y
        (SFadd 53 1024 (b64 1)
           (SFmul 53 1024 (SFdiv 53 1024 y (b64 (Z.of_nat n))) acc))
  end.

Fixpoint square_n (n : nat) (x : spec_float) : spec_float :=
  match n with
  | O => x
  | S k => square_n k (SFmul 53 1024 x x)
  end.

Definition expf_ref (x : float32) : float32 :=
  match x with
  | S754_nan => S754_nan
  | S754_infinity false => S754_infinity false
  | S754_infinity true => S754_zero false
  | S754_zero _ => b32_one
  | S754_finite _ _ _ =>
      if SFltb x (b32 (-104) 0) then S754_zero false
      else if SFltb (b32 89 0) x then S754_infinity false
      else narrow (square_n 10 (exp_poly 12 (SFldexp 53 1024 (widen x) (-10)) (b64 1)))
  end.

Definition libm_ref : Libm float32 := {| f_expf := expf_ref |}.

End Binary32.

(** ** The network in memory *)

Section Wiring.
Context {F : Type}.

(** A constructed network whose weight tables [W1], [W2] and biases [B1],
    [B2] are in place; [Hb] is the current content of [layer1_output_].  The
    intermediate buffer is a private member: no table shares its block. *)
Record wired (nn : NeuralNetwork) (m : memory F) (W1 B1 W2 B2 Hb : list F)
  : Prop := {
  wired_w1 : m !! layer1_weights_ nn = Some W1;
  wired_b1 : m !! layer1_bias_ nn = Some B1;
  wired_w2 : m !! layer2_weights_ nn = Some W2;
  wired_b2 : m !! layer2_bias_ nn = Some B2;
  wired_buf : m !! layer1_output_ nn = Some Hb;
  wired_buf_len : length Hb = HIDDEN_CAPACITY;
  wired_w1_len : layer1_input_size_ nn * layer1_output_size_ nn ≤ length W1;
  wired_b1_len : layer1_output_size_ nn ≤ length B1;
  wired_w2_len : layer2_input_size_ nn * layer2_output_size_ nn ≤ length W2;
  wired_b2_len : layer2_output_size_ nn ≤ length B2;
  wired_w1_fit : (N.of_nat (length W1) < 2 ^ SIZE_BITS)%N;
  wired_w2_fit : (N.of_nat (length W2) < 2 ^ SIZE_BITS)%N;
  wired_l1_cap : layer1_output_size_ nn ≤ HIDDEN_CAPACITY;
  wired_l2_cap : layer2_input_size_ nn ≤ HIDDEN_CAPACITY;
  wired_private :
    layer1_output_ nn ∉ [layer1_weights_ nn; layer1_bias_ nn;
                         layer2_weights_ nn; layer2_bias_ nn];
}.

(** The buffers of one call [predict(input, output)]: an input vector [X] of
    at least [layer1_input_size_] floats and an output buffer [O] of at least
    one float with room for the [layer2_output_size_] probabilities, which is
    none of the constant tables and not the private intermediate buffer. *)
Record call_buffers (nn : NeuralNetwork) (m : memory F) (input output : ptr)
    (X O : list F) : Prop := {
  call_input : m !! input = Some X;
  call_output : m !! output = Some O;
  call_input_len : layer1_input_size_ nn ≤ length X;
  call_output_len : layer2_output_size_ nn ≤ length O;
  call_output_nonempty : 0 < length O;
  call_input_sep : input ≠ layer1_output_ nn;
  call_output_sep :
    output ∉ [layer1_weights_ nn; layer1_bias_ nn; layer2_weights_ nn;
              layer2_bias_ nn; layer1_output_ nn];
}.

(** Layer 2 reads exactly what layer 1 wrote. *)
Definition chained (nn : NeuralNetwork) : Prop :=
  layer1_output_size_ nn = layer2_input_size_ nn.

End Wiring.

Section NetworkValues.
Context {F : Type} {FA : FloatArith F} {LM : Libm F}.
Implicit Types (nn : NeuralNetwork).

(** Content of the intermediate buffer after a call on input [X]. *)
Definition buffer_after nn (W1 B1 X Hb : list F) : list F :=
  hidden W1 B1 X (layer1_input_size_ nn) (layer1_output_size_ nn)
    ++ drop (layer1_output_size_ nn) Hb.

(** Content of the output buffer after a call on input [X]. *)
Definition output_after nn (W1 B1 W2 B2 X Hb O : list F) : list F :=
  softmax_list
    (dense W2 B2 (buffer_after nn W1 B1 X Hb)
       (layer2_input_size_ nn) (layer2_output_size_ nn))
    ++ drop (layer2_output_size_ nn) O.

(** The slots of the intermediate buffer that layer 1 does not use hold
    [0.0f]. *)
Definition tail_zero nn (Hb : list F) : Prop :=
  ∀ i, layer1_output_size_ nn ≤ i → i < HIDDEN_CAPACITY → Hb !! i = Some f_zero.

End NetworkValues.

(** ** Predicates on binary32 buffers *)

Section Binary32Predicates.
Import Binary32.
Implicit Types (x y w : float32).

(** The value of an accumulator fed with products by zero. *)
Definition zero_or_nan x : Prop := x = b32_zero ∨ x = S754_nan.

Definition all_zero (W : list float32) : Prop := Forall (λ w, is_zero w = true) W.

Definition all_finite (X : list float32) : Prop := Forall (λ x, is_finite x = true) X.

(** Equal as floats; the two zeros count as the same value. *)
Definition same_value x y : Prop := x = y ∨ (is_zero x = true ∧ is_zero y = true).

End Binary32Predicates.

(** ** The order of binary32 *)

Section Binary32Rank.
Import Binary32.
Open Scope Z_scope.

(** A float that is not a NaN as a point of [Z * Z * Z], ordered
    lexicographically: class (infinities, signed finite numbers, zero), then
    exponent, then mantissa. *)
Definition rank (x : float32) : option (Z * Z * Z) :=
  match x with
  | S754_nan => None
  | S754_infinity true => Some (-2, 0, 0)
  | S754_infinity false => Some (2, 0, 0)
  | S754_zero _ => Some (0, 0, 0)
  | S754_finite false mx ex => Some (1, ex, Z.pos mx)
  | S754_finite true mx ex => Some (-1, - ex, Z.neg mx)
  end.

Definition lex (a b : Z * Z * Z) : Prop :=
  a.1.1 < b.1.1
  ∨ (a.1.1 = b.1.1 ∧ (a.1.2 < b.1.2 ∨ (a.1.2 = b.1.2 ∧ a.2 < b.2))).

End Binary32Rank.

(** ** Concrete buffers and networks *)

Module Examples.
Import Binary32.

(** The float of an integer. *)
Definition f32 (z : Z) : float32 := b32 z 0.

(** [1.0f / 3.0f]. *)
Definition third : float32 := Eval vm_compute in f_div b32_one (f32 3).

(** Memory for [matvec_multiply]: a [2 x 3] table (block 0), an input of
    length 2 (block 1) and an output buffer of length 4 holding [7.0f]
    (block 2). *)
Definition mv_W : list float32 := f32 <$> [1; 2; 3; 4; 5; 6]%Z.
Definition mv_X : list float32 := f32 <$> [1; 10]%Z.
Definition mv_O : list float32 := f32 <$> [7; 7; 7; 7]%Z.
Definition mv_mem : memory float32 := [mv_W; mv_X; mv_O].

(** Memory for [vector_add]: two buffers of length 3. *)
Definition va_A : list float32 := f32 <$> [1; 2; 3]%Z.
Definition va_B : list float32 := f32 <$> [10; 20; 30]%Z.
Definition va_mem : memory float32 := [va_A; va_B].

(** The identity network of the end-to-end test: both layers [2 x 2] identity
    tables with zero biases (blocks 0 to 3), the input [[1.0, 2.0]] (block 4),
    an output buffer (block 5) and the network object (block 6). *)
Definition id_W : list float32 := f32 <$> [1; 0; 0; 1]%Z.
Definition id_B : list float32 := f32 <$> [0; 0]%Z.
Definition id_X : list float32 := f32 <$> [1; 2]%Z.
Definition id_O : list float32 := f32 <$> [9; 9]%Z.
Definition id_Hb : list float32 := replicate HIDDEN_CAPACITY b32_zero.
Definition id_mem : memory float32 := [id_W; id_B; id_W; id_B; id_X; id_O; id_Hb].
Definition id_nn : NeuralNetwork :=
  {| layer1_weights_ := 0; layer1_bias_ := 1;
     layer1_input_size_ := 2; layer1_output_size_ := 2;
     layer2_weights_ := 2; layer2_bias_ := 3;
     layer2_input_size_ := 2; layer2_output_size_ := 2;
     layer1_output_ := 6 |}.

(** A buffer for [relu]: [-1.5, -0.0, 0.0, 2.0, NaN, -inf]. *)
Definition relu_D : list float32 :=
  [b32 (-3) (-1); S754_zero true; b32_zero; f32 2; S754_nan; S754_infinity true].

(** Memory for [dense_forward] with an all-zero [2 x 2] table: the input
    (block 0), the table (block 1), the bias [[5.0, -0.0]] (block 2) and the
    output buffer (block 3). *)
Definition dz_X : list float32 := f32 <$> [3; -4]%Z.
Definition dz_W : list float32 := [b32_zero; S754_zero true; b32_zero; b32_zero].
Definition dz_B : list float32 := [f32 5; S754_zero true].
Definition dz_O : list float32 := f32 <$> [9; 9]%Z.
Definition dz_mem : memory float32 := [dz_X; dz_W; dz_B; dz_O].

(** The same layer, [1 x 1], on the input [[+inf]] with bias [[1.0]]. *)
Definition dinf_mem : memory float32 :=
  [[S754_infinity false]; [b32_zero]; [b32_one]; [f32 9]].

(** The 18-hidden-unit, 3-class configuration with all-zero tables (blocks 0
    to 3), an input that holds an infinity (block 4) and the network object
    (block 5). *)
Definition z_W1 : list float32 := replicate 36 b32_zero.
Definition z_B1 : list float32 := replicate 18 b32_zero.
Definition z_W2 : list float32 := replicate 54 b32_zero.
Definition z_B2 : list float32 := replicate 3 b32_zero.
Definition z_X : list float32 := [f32 3; S754_infinity false].
Definition z_Hb : list float32 := replicate HIDDEN_CAPACITY b32_zero.
Definition z_mem : memory float32 := [z_W1; z_B1; z_W2; z_B2; z_X; z_Hb].
Definition z_nn : NeuralNetwork :=
  {| layer1_weights_ := 0; layer1_bias_ := 1;
     layer1_input_size_ := 2; layer1_output_size_ := 18;
     layer2_weights_ := 2; layer2_bias_ := 3;
     layer2_input_size_ := 18; layer2_output_size_ := 3;
     layer1_output_ := 5 |}.

(** A network of the thermal detector's shape, 10 inputs, 8 hidden units and
    2 classes, with all-zero tables. *)
Definition t_W1 : list float32 := replicate 80 b32_zero.
Definition t_B1 : list float32 := replicate 8 b32_zero.
Definition t_W2 : list float32 := replicate 16 b32_zero.
Definition t_B2 : list float32 := replicate 2 b32_zero.
Definition t_X : list float32 := replicate 10 (f32 25).
Definition t_mem : memory float32 :=
  [t_W1; t_B1; t_W2; t_B2; t_X; replicate HIDDEN_CAPACITY b32_zero].
Definition t_nn : NeuralNetwork :=
  {| layer1_weights_ := 0; layer1_bias_ := 1;
     layer1_input_size_ := 10; layer1_output_size_ := 8;
     layer2_weights_ := 2; layer2_bias_ := 3;
     layer2_input_size_ := 8; layer2_output_size_ := 2;
     layer1_output_ := 5 |}.


(** The largest finite float. *)
Definition FLT_MAX : float32 := S754_finite false 16777215 104.

(** A network with one input, one hidden unit and two classes whose only
    non-zero weight is [2.0] (blocks 0 to 3), the input [[FLT_MAX]] (block 4),
    an output buffer (block 5) and the network object (block 6). *)
Definition ov_W1 : list float32 := [f32 2].
Definition ov_B1 : list float32 := [b32_zero].
Definition ov_W2 : list float32 := [b32_zero; b32_zero].
Definition ov_B2 : list float32 := [b32_zero; b32_zero].
Definition ov_X : list float32 := [FLT_MAX].
Definition ov_mem : memory float32 :=
  [ov_W1; ov_B1; ov_W2; ov_B2; ov_X; id_O; id_Hb].
Definition ov_nn : NeuralNetwork :=
  {| layer1_weights_ := 0; layer1_bias_ := 1;
     layer1_input_size_ := 1; layer1_output_size_ := 1;
     layer2_weights_ := 2; layer2_bias_ := 3;
     layer2_input_size_ := 1; layer2_output_size_ := 2;
     layer1_output_ := 6 |}.


(** The memory of the identity network with the input [[1.0, NaN]]. *)
Definition nan_X : list float32 := [f32 1; S754_nan].
Definition nan_mem : memory float32 :=
  [id_W; id_B; id_W; id_B; nan_X; id_O; id_Hb].

(** A window of ten readings. *)
Definition win_W : list float32 := f32 <$> [20; 21; 22; 23; 24; 25; 26; 27; 28; 29]%Z.

End Examples.

(** ** Rounding in binary32 *)

Section Rounding.
Import Binary32.
Open Scope Z_scope.

(** The float a rounded mantissa [m1] on the grid [2^E] is made into. *)
Inductive rounded_to (sx : bool) (m1 E : Z) : float32 → Prop :=
| rounded_zero : m1 = 0 → rounded_to sx m1 E (S754_zero sx)
| rounded_finite mf ef :
    E ≤ ef → Z.pos mf * 2 ^ (ef - E) = m1 →
    canonical_mantissa prec emax mf ef = true → ef ≤ emax - prec →
    rounded_to sx m1 E (S754_finite sx mf ef)
| rounded_overflow mf ef :
    E ≤ ef → Z.pos mf * 2 ^ (ef - E) = m1 →
    canonical_mantissa prec emax mf ef = true → emax - prec < ef →
    rounded_to sx m1 E (S754_infinity sx).

(** The real number a float stands for. *)
Definition bpow (e : Z) : R := powerRZ 2 e.

Definition F2R (m e : Z) : R := (IZR m * bpow e)%R.

Definition B2R (x : float32) : R :=
  match x with
  | S754_finite s m e => F2R (cond_Zopp s (Z.pos m)) e
  | _ => 0%R
  end.

(** A float that is [0.0f] or positive and finite. *)
Definition nonneg_float (a : float32) : Prop :=
  valid_binary prec emax a = true
  ∧ (a = S754_zero false ∨ ∃ m e, a = S754_finite false m e).

(** [r] is the real number [x >= 0] rounded to a float: [+inf] on overflow,
    otherwise a float between the floats around [x], at most one unit in
    the last place away. *)
Record rounded (x : R) (r : float32) : Prop := {
  rounded_class : r = S754_infinity false ∨ nonneg_float r;
  rounded_lower : ∀ a, nonneg_float a → (B2R a <= x)%R →
    r = S754_infinity false ∨ (B2R a <= B2R r)%R;
  rounded_upper : ∀ a, nonneg_float a → (x <= B2R a)%R →
    nonneg_float r ∧ (B2R r <= B2R a)%R;
  rounded_error : nonneg_float r →
    (Rabs (B2R r - x) <= Rmax (x * bpow (-23)) (bpow (-149)))%R;
}.

(** A float that is a zero or finite, of either sign. *)
Definition finite_float (x : float32) : Prop :=
  valid_binary prec emax x = true ∧ is_finite x = true.

(** A float of [[0, 1]]. *)
Definition unit_float (y : float32) : Prop := nonneg_float y ∧ (B2R y <= 1)%R.

(** What the theorems ask of [expf]: the value [1] at a zero, and a float of
    [[0, 1]] at every argument that is not positive. *)
Record expf_spec (LM : Libm float32) : Prop := {
  expf_zero : ∀ s, f_expf (S754_zero s) = b32_one;
  expf_unit : ∀ d, valid_binary prec emax d = true →
    SFleb d b32_zero = true → unit_float (f_expf d);
}.

(** The sum of a list of real numbers. *)
Definition Rsum (l : list R) : R := foldr Rplus 0%R l.

(** The distance from [1] that rounding can put the sum of [n]
    probabilities at. *)
Definition rounding_tolerance (n : nat) : R := (INR n * (INR n + 1) / 2 ^ 23)%R.

(** A buffer of floats of the format. *)
Definition all_valid (l : list float32) : Prop :=
  Forall (λ x, valid_binary prec emax x = true) l.

(** The reference [expf], kept within [[0, 1]] where the argument is not
    positive, as the exponential is. *)
Definition expf_clamped (x : float32) : float32 :=
  let y := expf_ref x in
  if SFleb x b32_zero then
    if SFltb b32_one y then b32_one
    else if SFltb b32_zero y then y else b32_zero
  else y.

Definition libm_clamped : Libm float32 := {| f_expf := expf_clamped |}.

(** A float that is a probability: finite, and in [[0, 1]] for the
    comparison of the code. *)
Definition probability (q : float32) : Prop :=
  is_finite q = true
  ∧ SFleb b32_zero q = true ∧ SFleb q b32_one = true.

End Rounding.

Arguments bpow : simpl never.

(** * Lemmas *)

(** ** Reasoning about memory and loops *)

Section MachineLemmas.
Context {F : Type}.
Implicit Types (m : memory F) (L : list F) (p q : ptr).

Lemma bind_ok {A B} (c : M A) (k : A → M B) m a m' :
  c m = Ok a m' → bind c k m = k a m'.
Proof. unfold bind. by intros ->. Qed.

Lemma load_block m p L i x :
  m !! p = Some L → L !! i = Some x → load p i m = Ok x m.
Proof. unfold load. intros -> Hx. simpl. by rewrite Hx. Qed.

Lemma store_block m p L i v :
  m !! p = Some L → i < length L →
  store p i v m = Ok tt (<[p := <[i := v]> L]> m).
Proof. unfold store. intros -> Hi. by rewrite decide_True. Qed.

Lemma block_insert_eq m p L L' :
  m !! p = Some L → <[p := L']> m !! p = Some L'.
Proof. intros Hp. apply list_lookup_insert_eq. by eapply lookup_lt_Some. Qed.

Lemma block_insert_ne m p q L' :
  p ≠ q → <[p := L']> m !! q = m !! q.
Proof. intros. by apply list_lookup_insert_ne. Qed.

(** A loop over [i < n] that rewrites element [i] of block [p] from its old
    value, and folds the old values into its local variables. *)
Lemma for_update_acc {A} (p : ptr) (g : nat → F → F) (h : A → nat → F → A)
    (body : nat → A → M A) n m L :
  m !! p = Some L → n ≤ length L →
  (∀ i x L' a, i < n → L !! i = Some x → L' !! i = Some x →
     length L' = length L →
     body i a (<[p := L']> m) = Ok (h a i x) (<[p := <[i := g i x]> L']> m)) →
  ∀ a, for_range 0 n body a m
       = Ok (scan h 0 (take n L) a)
            (<[p := imap g (take n L) ++ drop n L]> m).
Proof.
  intros Hp Hn Hbody a. unfold for_range. rewrite Nat.sub_0_r.
  assert (Hgen : ∀ k i a, i + k ≤ n →
    for_loop k i body a (<[p := imap g (take i L) ++ drop i L]> m)
    = Ok (scan h i (take k (drop i L)) a)
         (<[p := imap g (take (i + k) L) ++ drop (i + k) L]> m)).
  { induction k as [|k IH]; intros i a0 Hik.
    - simpl. rewrite Nat.add_0_r. done.
    - destruct (lookup_lt_is_Some_2 L i) as [x Hx]; [lia|].
      cbn [for_loop].
      erewrite bind_ok; last first.
      { apply Hbody; [lia|done| |].
        - rewrite lookup_app_r; rewrite length_imap, length_take_le by lia; [|lia].
          rewrite Nat.sub_diag. by rewrite lookup_drop, Nat.add_0_r.
        - rewrite length_app, length_imap, length_take_le, length_drop by lia. lia. }
      assert (Hstep : <[i := g i x]> (imap g (take i L) ++ drop i L)
                      = imap g (take (S i) L) ++ drop (S i) L).
      { rewrite (take_S_r L i x Hx), imap_app. simpl.
        rewrite length_take_le, Nat.add_0_r by lia.
        rewrite (drop_S L x i Hx).
        replace i with (length (imap g (take i L)) + 0) at 1
          by (rewrite length_imap, length_take_le; lia).
        rewrite insert_app_r. simpl. by rewrite <- (assoc_L (++)). }
      rewrite Hstep, IH by lia.
      rewrite (drop_S L x i Hx). simpl.
      by replace (i + S k) with (S (i + k)) by lia. }
  specialize (Hgen n 0 a). simpl in Hgen.
  rewrite drop_0, (list_insert_id m p L Hp) in Hgen. by apply Hgen.
Qed.

(** The same without local variables. *)
Lemma for_update (p : ptr) (g : nat → F → F) (body : nat → unit → M unit) n m L :
  m !! p = Some L → n ≤ length L →
  (∀ i x L', i < n → L !! i = Some x → L' !! i = Some x →
     length L' = length L →
     body i tt (<[p := L']> m) = Ok tt (<[p := <[i := g i x]> L']> m)) →
  for_range 0 n body tt m = Ok tt (<[p := imap g (take n L) ++ drop n L]> m).
Proof.
  intros Hp Hn Hbody.
  rewrite (for_update_acc p g (λ _ _ _, tt) body n m L Hp Hn).
  - f_equal. by destruct (scan _ _ _ _).
  - intros i x L' [] **. by apply Hbody.
Qed.

(** A loop that only reads block [p] and updates its local variables. *)
Lemma for_scan {A} (p : ptr) (h : A → nat → F → A) (body : nat → A → M A) m L :
  m !! p = Some L →
  (∀ i x a, L !! i = Some x → body i a m = Ok (h a i x) m) →
  ∀ n lo a, lo + n ≤ length L →
    for_loop n lo body a m = Ok (scan h lo (take n (drop lo L)) a) m.
Proof.
  intros Hp Hbody. induction n as [|n IH]; intros lo a Hlen.
  - done.
  - destruct (lookup_lt_is_Some_2 L lo) as [x Hx]; [lia|].
    cbn [for_loop]. erewrite bind_ok by (by apply Hbody).
    rewrite IH by lia. by rewrite (drop_S L x lo Hx).
Qed.

End MachineLemmas.

Section ListLemmas.
Context {F : Type}.
Implicit Types (m : memory F) (L : list F) (p q : ptr).

Lemma load_insert_eq m p L L' i x :
  m !! p = Some L → L' !! i = Some x →
  load p i (<[p := L']> m) = Ok x (<[p := L']> m).
Proof. intros Hp Hx. eapply load_block; [by eapply block_insert_eq|done]. Qed.

Lemma load_insert_ne m p q L L' i x :
  p ≠ q → m !! q = Some L → L !! i = Some x →
  load q i (<[p := L']> m) = Ok x (<[p := L']> m).
Proof.
  intros Hne Hq Hx. eapply load_block; [|done]. by rewrite block_insert_ne.
Qed.

Lemma store_insert_eq m p L L' i v :
  m !! p = Some L → i < length L' →
  store p i v (<[p := L']> m) = Ok tt (<[p := <[i := v]> L']> m).
Proof.
  intros Hp Hi. erewrite store_block; [|by eapply block_insert_eq|done].
  by rewrite list_insert_insert_eq.
Qed.

Lemma scan_foldl {A} (h : A → F → A) (l : list F) i a :
  scan (λ a _ x, h a x) i l a = foldl h a l.
Proof. revert i a. induction l as [|x l IH]; intros i a; simpl; auto. Qed.

Lemma foldl_fmap {A B} (h : A → B → A) (e : F → B) (l : list F) a :
  foldl (λ a x, h a (e x)) a l = foldl h a (e <$> l).
Proof. revert a. induction l as [|x l IH]; intros a; simpl; auto. Qed.

Lemma imap_fmap_seq (g : nat → F → F) (f : nat → F) n :
  imap g (f <$> seq 0 n) = (λ j, g j (f j)) <$> seq 0 n.
Proof.
  apply list_eq. intros i.
  rewrite list_lookup_imap, !list_lookup_fmap.
  destruct (decide (i < n)) as [Hi|Hi].
  - by rewrite lookup_seq_lt.
  - by rewrite lookup_seq_ge by lia.
Qed.

Lemma lookup_nth L i (d : F) : i < length L → L !! i = Some (nth i L d).
Proof.
  intros Hi. destruct (lookup_lt_is_Some_2 L i Hi) as [x Hx].
  by rewrite (nth_lookup_Some L i d x Hx).
Qed.

Lemma weight_index_small i cols j :
  (N.of_nat (i * cols + j) < 2 ^ SIZE_BITS)%N → weight_index i cols j = i * cols + j.
Proof.
  intros Hlt. unfold weight_index, size_wrap.
  rewrite N.mod_small by lia. lia.
Qed.

End ListLemmas.

(** ** Each function against the values it computes *)

Section Refinement.
Context {F : Type} {FA : FloatArith F} {LM : Libm F}.
Implicit Types (m : memory F) (p q : ptr).

Lemma load_insert_any m p q (Lp Lq L' : list F) i x :
  m !! p = Some Lp → m !! q = Some Lq → Lq !! i = Some x →
  L' !! i = Lp !! i →
  load q i (<[p := L']> m) = Ok x (<[p := L']> m).
Proof.
  intros Hp Hq Hx HL'. destruct (decide (p = q)) as [->|Hne].
  - eapply load_insert_eq; [done|]. rewrite HL'. congruence.
  - by eapply load_insert_ne.
Qed.

Lemma relu_ok data size m (D : list F) :
  m !! data = Some D → size ≤ length D →
  Activation.relu data size m
  = Ok tt (<[data := (Activation.relu1 <$> take size D) ++ drop size D]> m).
Proof.
  intros Hd Hs. unfold Activation.relu.
  rewrite (for_update data (λ _, Activation.relu1) _ size m D Hd Hs).
  - by rewrite <- (imap_const Activation.relu1).
  - intros i x L' Hi Hx Hx' Hlen.
    erewrite bind_ok by (by eapply load_insert_eq).
    eapply store_insert_eq; [done|]. by eapply lookup_lt_Some.
Qed.

Lemma vector_add_ok a b output size m (A B O : list F) :
  m !! a = Some A → m !! b = Some B → m !! output = Some O →
  size ≤ length A → size ≤ length B → size ≤ length O →
  MatrixOps.vector_add a b output size m
  = Ok tt (<[output := ((λ i, f_add (nth i A f_zero) (nth i B f_zero))
                          <$> seq 0 size) ++ drop size O]> m).
Proof.
  intros Ha Hb Ho HA HB HO. unfold MatrixOps.vector_add.
  rewrite (for_update output (λ i _, f_add (nth i A f_zero) (nth i B f_zero))
             _ size m O Ho HO).
  - by rewrite imap_seq_0, length_take_le.
  - intros i x L' Hi Hx Hx' Hlen.
    erewrite bind_ok; last first.
    { eapply (load_insert_any m output a O A); [done..| |congruence].
      apply lookup_nth. lia. }
    erewrite bind_ok; last first.
    { eapply (load_insert_any m output b O B); [done..| |congruence].
      apply lookup_nth. lia. }
    eapply store_insert_eq; [done|]. by eapply lookup_lt_Some.
Qed.

Lemma matvec_multiply_ok weights input output rows cols m (W X O : list F) :
  m !! weights = Some W → m !! input = Some X → m !! output = Some O →
  rows * cols ≤ length W → rows ≤ length X → cols ≤ length O →
  output ≠ weights → output ≠ input →
  (N.of_nat (rows * cols) < 2 ^ SIZE_BITS)%N →
  MatrixOps.matvec_multiply weights input output rows cols m
  = Ok tt (<[output := matvec W X rows cols ++ drop cols O]> m).
Proof.
  intros Hw Hx Ho HW HX HO Hnw Hni Hfit. unfold MatrixOps.matvec_multiply.
  (* the output is cleared *)
  erewrite bind_ok; last first.
  { apply (for_update output (λ _ _, f_zero) _ cols m O Ho HO).
    intros j x L' Hj _ Hx' _.
    eapply store_insert_eq; [done|]. by eapply lookup_lt_Some. }
  rewrite (imap_seq_0 _ (λ _, f_zero)), length_take_le by done.
  (* one row at a time *)
  unfold for_range at 1. rewrite Nat.sub_0_r.
  assert (Hrows : ∀ k i, i + k ≤ rows →
    for_loop k i
      (λ i _, for_range 0 cols
         (λ j _, do o <- load output j ;
                 do w <- load weights (weight_index i cols j) ;
                 do x <- load input i ;
                 store output j (f_add o (f_mul w x))) tt) tt
      (<[output := ((λ j, col_sum W X cols j i) <$> seq 0 cols) ++ drop cols O]> m)
    = Ok tt (<[output := ((λ j, col_sum W X cols j (i + k)) <$> seq 0 cols)
                           ++ drop cols O]> m)).
  { induction k as [|k IH]; intros i Hik.
    - simpl. by rewrite Nat.add_0_r.
    - cbn [for_loop].
      set (Li := ((λ j, col_sum W X cols j i) <$> seq 0 cols) ++ drop cols O).
      assert (HLi : length Li = length O).
      { unfold Li. rewrite length_app, length_fmap, length_seq, length_drop. lia. }
      erewrite bind_ok; last first.
      { apply (for_update output
                 (λ j o, f_add o (f_mul (nth (i * cols + j) W f_zero) (nth i X f_zero)))
                 _ cols (<[output := Li]> m) Li).
        - by eapply block_insert_eq.
        - lia.
        - intros j o L' Hj Ho' HL' Hlen.
          rewrite list_insert_insert_eq.
          erewrite bind_ok by (by eapply load_insert_eq).
          erewrite bind_ok; last first.
          { eapply load_insert_ne; [done|done|].
            rewrite weight_index_small by nia. apply lookup_nth. nia. }
          erewrite bind_ok; last first.
          { eapply load_insert_ne; [done|done|]. apply lookup_nth. lia. }
          erewrite store_insert_eq; [|done|by eapply lookup_lt_Some].
          by rewrite list_insert_insert_eq. }
      rewrite list_insert_insert_eq.
      unfold Li at 1 2.
      rewrite take_app_length', drop_app_length' by (by rewrite length_fmap, length_seq).
      rewrite imap_fmap_seq.
      replace (i + S k) with (S i + k) by lia. by apply IH; lia. }
  apply (Hrows rows 0). simpl. lia.
Qed.

Lemma dense_forward_ok input weights bias output input_size output_size m
    (X W B O : list F) :
  m !! input = Some X → m !! weights = Some W → m !! bias = Some B →
  m !! output = Some O →
  input_size * output_size ≤ length W → input_size ≤ length X →
  output_size ≤ length B → output_size ≤ length O →
  output ≠ weights → output ≠ input → output ≠ bias →
  (N.of_nat (input_size * output_size) < 2 ^ SIZE_BITS)%N →
  MatrixOps.dense_forward input weights bias output input_size output_size m
  = Ok tt (<[output := dense W B X input_size output_size ++ drop output_size O]> m).
Proof.
  intros Hx Hw Hb Ho HW HX HB HO Hnw Hni Hnb Hfit. unfold MatrixOps.dense_forward.
  erewrite bind_ok by (by eapply matvec_multiply_ok).
  set (L1 := matvec W X input_size output_size ++ drop output_size O).
  assert (Hlen1 : length (matvec W X input_size output_size) = output_size)
    by (unfold matvec; by rewrite length_fmap, length_seq).
  erewrite (for_update output (λ j o, f_add o (nth j B f_zero)) _ output_size
              (<[output := L1]> m) L1); first last.
  - intros j o L' Hj Ho' HL' Hlen.
    rewrite list_insert_insert_eq.
    erewrite bind_ok by (by eapply load_insert_eq).
    erewrite bind_ok; last first.
    { eapply load_insert_ne; [done|done|]. apply lookup_nth. lia. }
    erewrite store_insert_eq; [|done|by eapply lookup_lt_Some].
    by rewrite list_insert_insert_eq.
  - unfold L1. rewrite length_app, Hlen1, length_drop. lia.
  - by eapply block_insert_eq.
  - rewrite list_insert_insert_eq. unfold L1.
    rewrite take_app_length', drop_app_length' by done.
    unfold matvec. by rewrite imap_fmap_seq.
Qed.

Lemma softmax_ok data size m (D : list F) :
  m !! data = Some D → 0 < length D → size ≤ length D →
  Activation.softmax data size m
  = Ok tt (<[data := softmax_list (take size D) ++ drop size D]> m).
Proof.
  intros Hd Hpos Hs. unfold Activation.softmax.
  destruct D as [|d0 D']; [simpl in Hpos; lia|].
  destruct size as [|s].
  { (* no element to rewrite: [data[0]] is read all the same *)
    erewrite bind_ok by (by eapply load_block).
    unfold for_range. simpl. unfold bind, ret.
    by rewrite (list_insert_id m data (d0 :: D') Hd). }
  (* the maximum *)
  erewrite bind_ok by (by eapply load_block).
  erewrite bind_ok; last first.
  { unfold for_range.
    apply (for_scan data (λ mx _ x, if f_gt x mx then x else mx) _ m (d0 :: D') Hd).
    - intros i x mx Hx. by erewrite bind_ok by (by eapply load_block).
    - simpl in *. lia. }
  rewrite scan_foldl. change (drop 1 (d0 :: D')) with D'.
  replace (S s - 1) with s by lia.
  change (foldl _ d0 (take s D')) with (max_of (take (S s) (d0 :: D'))).
  set (D := d0 :: D') in *. set (mx := max_of (take (S s) D)).
  (* exponentials and their sum *)
  erewrite bind_ok; last first.
  { apply (for_update_acc data (λ _ x, f_expf (f_sub x mx))
             (λ sum _ x, f_add sum (f_expf (f_sub x mx))) _ (S s) m D Hd Hs).
    intros i x L' sum Hi Hx Hx' Hlen.
    assert (i < length L') by (by eapply lookup_lt_Some).
    erewrite bind_ok by (by eapply load_insert_eq).
    erewrite bind_ok by (by eapply store_insert_eq).
    erewrite bind_ok; [done|].
    eapply load_insert_eq; [done|]. by apply list_lookup_insert_eq. }
  rewrite scan_foldl, (foldl_fmap f_add (λ x, f_expf (f_sub x mx))).
  change (foldl f_add f_zero _) with (float_sum (exp_shifted (take (S s) D))).
  assert (HEeq : imap (λ _ x, f_expf (f_sub x mx)) (take (S s) D)
                 = exp_shifted (take (S s) D))
    by apply (imap_const (λ x, f_expf (f_sub x mx))).
  rewrite HEeq. clear HEeq.
  set (E := exp_shifted (take (S s) D)).
  assert (HE : length E = S s).
  { unfold E, exp_shifted. rewrite length_fmap, length_take_le; lia. }
  (* normalisation *)
  erewrite (for_update data (λ _ y, f_div y (float_sum E)) _ (S s)
              (<[data := E ++ drop (S s) D]> m) (E ++ drop (S s) D)); first last.
  - intros i y L' Hi Hy Hy' Hlen.
    rewrite list_insert_insert_eq.
    erewrite bind_ok by (by eapply load_insert_eq).
    erewrite store_insert_eq; [|done|by eapply lookup_lt_Some].
    by rewrite list_insert_insert_eq.
  - rewrite length_app, length_drop. lia.
  - by eapply block_insert_eq.
  - rewrite list_insert_insert_eq.
    rewrite take_app_length', drop_app_length' by done.
    by rewrite (imap_const (λ y, f_div y (float_sum E)) E
                  : imap (λ _ y, f_div y (float_sum E)) E
                    = softmax_list (take (S s) D)).
Qed.

End Refinement.

(** Separation hypotheses [p ∉ [q1; ...; qn]] as the disequalities [p ≠ qi]. *)
Ltac split_notin :=
  repeat match goal with
         | Hin : _ ∉ _ :: _ |- _ =>
             let Hne := fresh "Hne" in
             apply not_elem_of_cons in Hin as [Hne Hin]
         end.

Section NetworkRefinement.
Context {F : Type} {FA : FloatArith F} {LM : Libm F}.
Implicit Types (m : memory F) (nn : NeuralNetwork).

Lemma length_dense (W B X : list F) n k : length (dense W B X n k) = k.
Proof. unfold dense. by rewrite length_fmap, length_seq. Qed.

Lemma length_hidden (W B X : list F) n k : length (hidden W B X n k) = k.
Proof. unfold hidden. by rewrite length_fmap, length_dense. Qed.

Lemma length_softmax_list (l : list F) : length (softmax_list l) = length l.
Proof. unfold softmax_list, exp_shifted. by rewrite !length_fmap. Qed.

Lemma length_buffer_after nn (W1 B1 X Hb : list F) :
  layer1_output_size_ nn ≤ length Hb →
  length (buffer_after nn W1 B1 X Hb) = length Hb.
Proof.
  intros. unfold buffer_after. rewrite length_app, length_hidden, length_drop. lia.
Qed.

Lemma predict_ok nn input output m (W1 B1 W2 B2 Hb X O : list F) :
  wired nn m W1 B1 W2 B2 Hb → call_buffers nn m input output X O →
  Network.predict nn input output m
  = Ok tt (<[output := output_after nn W1 B1 W2 B2 X Hb O]>
             (<[layer1_output_ nn := buffer_after nn W1 B1 X Hb]> m)).
Proof.
  intros [] []. unfold Network.predict.
  split_notin.
  assert (HcapHb : layer1_output_size_ nn ≤ length Hb)
    by (unfold HIDDEN_CAPACITY in *; lia).
  (* layer 1 *)
  erewrite bind_ok; last first.
  { eapply dense_forward_ok; try done; try lia. }
  erewrite bind_ok; last first.
  { eapply relu_ok; [by eapply block_insert_eq|].
    rewrite length_app, length_dense, length_drop. lia. }
  rewrite list_insert_insert_eq.
  rewrite take_app_length', drop_app_length' by (by rewrite length_dense).
  fold (hidden W1 B1 X (layer1_input_size_ nn) (layer1_output_size_ nn)).
  fold (buffer_after nn W1 B1 X Hb).
  set (Hb' := buffer_after nn W1 B1 X Hb).
  assert (HlenHb' : length Hb' = length Hb) by (by apply length_buffer_after).
  (* layer 2 *)
  erewrite bind_ok; last first.
  { eapply (dense_forward_ok _ _ _ _ _ _ _ Hb' W2 B2 O);
      rewrite ?block_insert_ne by done; try done; try lia.
    by eapply block_insert_eq. }
  erewrite softmax_ok;
    [|eapply block_insert_eq; by rewrite block_insert_ne
     |rewrite length_app, length_dense, length_drop; lia..].
  rewrite list_insert_insert_eq.
  by rewrite take_app_length', drop_app_length' by (by rewrite length_dense).
Qed.

Lemma col_sum_ext (W X X' : list F) cols j n :
  (∀ i, i < n → nth i X f_zero = nth i X' f_zero) →
  col_sum W X cols j n = col_sum W X' cols j n.
Proof.
  induction n as [|n IH]; intros Hext; simpl; [done|].
  rewrite IH by (intros; apply Hext; lia). by rewrite Hext by lia.
Qed.

Lemma dense_app_l (W B X T : list F) n k :
  n ≤ length X → dense W B (X ++ T) n k = dense W B X n k.
Proof.
  intros Hn. unfold dense. apply list_fmap_ext. intros _ j _.
  f_equal. apply col_sum_ext. intros i Hi. apply app_nth1. lia.
Qed.

(** With chained layers the probabilities are [forward] of the input. *)
Lemma output_after_chained nn (W1 B1 W2 B2 X Hb O : list F) :
  chained nn →
  output_after nn W1 B1 W2 B2 X Hb O
  = forward W1 B1 W2 B2 X (layer1_input_size_ nn) (layer1_output_size_ nn)
      (layer2_output_size_ nn) ++ drop (layer2_output_size_ nn) O.
Proof.
  unfold chained. intros Hch. unfold output_after, buffer_after, forward.
  rewrite <- Hch. by rewrite dense_app_l by (by rewrite length_hidden).
Qed.

Lemma lookup_ne_length {A} (l : list A) p x : l !! p = Some x → length l ≠ p.
Proof. intros Hp%lookup_lt_Some. lia. Qed.

Lemma wired_app nn m l (W1 B1 W2 B2 Hb : list F) :
  wired nn m W1 B1 W2 B2 Hb → wired nn (m ++ l) W1 B1 W2 B2 Hb.
Proof.
  intros []. split; try done; by apply lookup_app_l_Some.
Qed.

Lemma wired_insert nn m p L (W1 B1 W2 B2 Hb : list F) :
  wired nn m W1 B1 W2 B2 Hb →
  p ∉ [layer1_weights_ nn; layer1_bias_ nn; layer2_weights_ nn;
       layer2_bias_ nn; layer1_output_ nn] →
  wired nn (<[p := L]> m) W1 B1 W2 B2 Hb.
Proof.
  intros Hw Hp. split_notin. destruct Hw.
  split; try done; by rewrite block_insert_ne.
Qed.

Lemma wired_buffer nn m Hb' (W1 B1 W2 B2 Hb : list F) :
  wired nn m W1 B1 W2 B2 Hb → length Hb' = HIDDEN_CAPACITY →
  wired nn (<[layer1_output_ nn := Hb']> m) W1 B1 W2 B2 Hb'.
Proof.
  intros [] Hlen. split_notin.
  split; try done; try (by rewrite block_insert_ne).
  - by eapply block_insert_eq.
  - by repeat (apply not_elem_of_cons; split); [..|apply not_elem_of_nil].
Qed.

Lemma predict_class_ok nn input junk m (W1 B1 W2 B2 Hb X : list F) :
  wired nn m W1 B1 W2 B2 Hb →
  m !! input = Some X → layer1_input_size_ nn ≤ length X →
  input ≠ layer1_output_ nn →
  layer2_output_size_ nn ≤ CLASS_BUFFER →
  Network.predict_class nn input junk m
  = Ok (argmax (output_after nn W1 B1 W2 B2 X Hb (junk <$> seq 0 CLASS_BUFFER)))
       (<[layer1_output_ nn := buffer_after nn W1 B1 X Hb]> m).
Proof.
  intros Hw Hin HX Hsep Hcap. unfold Network.predict_class.
  set (J := junk <$> seq 0 CLASS_BUFFER).
  change (bind (alloc CLASS_BUFFER junk) ?k m) with (k (length m) (m ++ [J])).
  cbv beta.
  assert (HJ : (m ++ [J]) !! length m = Some J) by apply list_lookup_middle, eq_refl.
  erewrite bind_ok; last first.
  { eapply (predict_ok nn input (length m) (m ++ [J]) W1 B1 W2 B2 Hb X J).
    - by apply wired_app.
    - destruct Hw. split; try done.
      + by apply lookup_app_l_Some.
      + unfold J. rewrite length_fmap, length_seq. unfold CLASS_BUFFER. lia.
      + repeat (apply not_elem_of_cons; split);
          [by eapply lookup_ne_length..|apply not_elem_of_nil]. }
  set (O' := output_after nn W1 B1 W2 B2 X Hb J).
  set (Hb' := buffer_after nn W1 B1 X Hb).
  assert (HO' : length O' = 3).
  { unfold O', output_after.
    rewrite length_app, length_softmax_list, length_dense, length_drop.
    unfold J. rewrite length_fmap, length_seq. unfold CLASS_BUFFER in *. lia. }
  destruct O' as [|o0 [|o1 [|o2 [|??]]]] eqn:HeqO'; try done.
  assert (Hout : <[length m := [o0; o1; o2]]> (<[layer1_output_ nn := Hb']> (m ++ [J]))
                   !! length m = Some [o0; o1; o2]).
  { eapply block_insert_eq. rewrite block_insert_ne; [done|].
    destruct Hw. symmetry. by eapply lookup_ne_length. }
  erewrite bind_ok by (by eapply load_block).
  erewrite bind_ok; last first.
  { unfold for_range.
    apply (for_scan (length m)
             (λ '(k, mx) i y, if f_gt y mx then (Z.of_nat i, y) else (k, mx))
             _ _ [o0; o1; o2] Hout); [|simpl; lia].
    intros i x [k mx] Hx. by erewrite bind_ok by (by eapply load_block). }
  unfold bind, pop_frame, ret.
  rewrite !length_insert, length_app, Nat.add_1_r, decide_True by done.
  f_equal.
  rewrite take_insert, insert_app_l; last first.
  { destruct Hw. by eapply lookup_lt_Some. }
  rewrite decide_False by lia.
  by rewrite take_app_length' by (by rewrite length_insert).
Qed.

Lemma construct_ok l1w l1b l1_in l1_out l2w l2b l2_in l2_out junk m :
  Network.construct l1w l1b l1_in l1_out l2w l2b l2_in l2_out junk m
  = Ok {| layer1_weights_ := l1w; layer1_bias_ := l1b;
          layer1_input_size_ := l1_in; layer1_output_size_ := l1_out;
          layer2_weights_ := l2w; layer2_bias_ := l2b;
          layer2_input_size_ := l2_in; layer2_output_size_ := l2_out;
          layer1_output_ := length m |}
       (m ++ [replicate HIDDEN_CAPACITY f_zero]).
Proof.
  unfold Network.construct.
  set (J := junk <$> seq 0 HIDDEN_CAPACITY).
  change (bind (alloc HIDDEN_CAPACITY junk) ?k m) with (k (length m) (m ++ [J])).
  cbv beta.
  erewrite bind_ok; last first.
  { apply (for_update (length m) (λ _ _, f_zero) _ 18 (m ++ [J]) J).
    - apply list_lookup_middle, eq_refl.
    - unfold J. by rewrite length_fmap, length_seq.
    - intros i x L' Hi Hx Hx' Hlen.
      eapply store_insert_eq; [apply list_lookup_middle, eq_refl|].
      by eapply lookup_lt_Some. }
  unfold ret. f_equal.
  replace (length m) with (length m + 0) at 1 by lia.
  rewrite insert_app_r. simpl. f_equal.
Qed.

End NetworkRefinement.

(** ** Facts of binary32 arithmetic *)

Section Binary32Facts.
Import Binary32.
Implicit Types (x y w : float32).

Lemma is_zero_nth W i : all_zero W → is_zero (nth i W b32_zero) = true.
Proof.
  intros HW. destruct (nth_lookup_or_length W i b32_zero) as [Hi|Hi].
  - by apply (Forall_lookup_1 _ _ _ _ HW Hi).
  - by rewrite nth_overflow by lia.
Qed.

Lemma mul_zero_any w x :
  is_zero w = true → is_zero (f_mul w x) = true ∨ f_mul w x = S754_nan.
Proof. destruct w, x; simpl; intros; try done; auto. Qed.

Lemma mul_zero_finite w x :
  is_zero w = true → is_finite x = true → is_zero (f_mul w x) = true.
Proof. by destruct w, x. Qed.

Lemma add_zero_or_nan x y :
  zero_or_nan x → is_zero y = true ∨ y = S754_nan → zero_or_nan (f_add x y).
Proof.
  intros [->| ->] [Hy| ->]; try (by right).
  destruct y as [[]| | |]; try done; by left.
Qed.

Lemma add_pos_zero y : is_zero y = true → f_add b32_zero y = b32_zero.
Proof. by destruct y as [[]| | |]. Qed.

(** [0.0f + y] is [y], except that [0.0f + -0.0f] is [0.0f]. *)
Lemma add_pos_zero_l y : same_value (f_add b32_zero y) y.
Proof. destruct y as [[]| | |]; (by left) || (by right). Qed.

Lemma add_pos_zero_exact y : y ≠ S754_zero true → f_add b32_zero y = y.
Proof. by destruct y as [[]| | |]. Qed.

Lemma relu1_zero_or_nan x : zero_or_nan x → Activation.relu1 x = b32_zero.
Proof. by intros [-> | ->]. Qed.

Lemma col_sum_zero_weights W X cols j n :
  all_zero W → zero_or_nan (col_sum W X cols j n).
Proof.
  intros HW. induction n as [|n IH]; simpl; [by left|].
  apply add_zero_or_nan; [done|]. apply mul_zero_any. by apply is_zero_nth.
Qed.

Lemma col_sum_zero_finite W X cols j n :
  all_zero W → (∀ i, i < n → is_finite (nth i X b32_zero) = true) →
  col_sum W X cols j n = b32_zero.
Proof.
  intros HW HX. induction n as [|n IH]; simpl; [done|].
  rewrite IH by (intros; apply HX; lia).
  apply add_pos_zero, mul_zero_finite; [by apply is_zero_nth|apply HX; lia].
Qed.

Lemma fmap_seq_const {A} (f : nat → A) c k :
  (∀ j, j < k → f j = c) → f <$> seq 0 k = replicate k c.
Proof.
  intros Hf. apply list_eq. intros i.
  rewrite list_lookup_fmap. destruct (decide (i < k)) as [Hi|Hi].
  - by rewrite lookup_seq_lt, lookup_replicate_2, <- (Hf i Hi).
  - rewrite lookup_seq_ge by lia. symmetry. apply lookup_replicate_None. lia.
Qed.

(** With all-zero tables the hidden activations are [0.0f], whatever the
    input holds: a NaN accumulated from [0 * inf] fails the test [x > 0]. *)
Lemma hidden_zero W1 B1 X n k :
  all_zero W1 → all_zero B1 → hidden W1 B1 X n k = replicate k b32_zero.
Proof.
  intros HW HB. unfold hidden, dense. rewrite <- list_fmap_compose.
  apply fmap_seq_const. intros j _. simpl.
  apply relu1_zero_or_nan, add_zero_or_nan.
  - by apply col_sum_zero_weights.
  - left. by apply is_zero_nth.
Qed.

Lemma dense_zero_finite W B X n k :
  all_zero W → all_zero B → (∀ i, i < n → is_finite (nth i X b32_zero) = true) →
  dense W B X n k = replicate k b32_zero.
Proof.
  intros HW HB HX. unfold dense. apply fmap_seq_const. intros j _.
  rewrite col_sum_zero_finite by done. apply add_pos_zero. by apply is_zero_nth.
Qed.

Lemma nth_replicate_zero k i : nth i (replicate k b32_zero) b32_zero = b32_zero.
Proof.
  destruct (decide (i < k)) as [Hi|Hi].
  - apply nth_lookup_Some. by apply lookup_replicate_2.
  - apply nth_overflow. rewrite length_replicate. lia.
Qed.

End Binary32Facts.

(** ** The example networks are wired *)

Section ExampleFacts.
Import Binary32 Examples.

Ltac solve_notin :=
  simpl; repeat (apply not_elem_of_cons; split; [lia|]); apply not_elem_of_nil.

Lemma id_wired (m : memory float32) Hb O :
  m = <[5 := O]> (<[6 := Hb]> id_mem) → length Hb = HIDDEN_CAPACITY →
  wired id_nn m id_W id_B id_W id_B Hb.
Proof.
  intros -> HHb.
  split; try done; try (cbv [HIDDEN_CAPACITY] in *; simpl; lia); solve_notin.
Qed.

Lemma id_call (m : memory float32) Hb O :
  m = <[5 := O]> (<[6 := Hb]> id_mem) → length O = 2 →
  call_buffers id_nn m 4 5 id_X O.
Proof.
  intros -> HO.
  split; try done; try (cbv [HIDDEN_CAPACITY] in *; simpl; lia); solve_notin.
Qed.

Lemma z_wired : wired z_nn z_mem z_W1 z_B1 z_W2 z_B2 z_Hb.
Proof.
  split; try done; try (cbv [HIDDEN_CAPACITY] in *; simpl; lia); solve_notin.
Qed.

End ExampleFacts.

(** ** The network stays wired *)

Section NetworkInvariants.
Context {F : Type} {FA : FloatArith F} {LM : Libm F}.
Implicit Types (m : memory F) (nn : NeuralNetwork).

Lemma predict_wired nn input output m (W1 B1 W2 B2 Hb X O : list F) :
  wired nn m W1 B1 W2 B2 Hb → call_buffers nn m input output X O →
  wired nn (<[output := output_after nn W1 B1 W2 B2 X Hb O]>
              (<[layer1_output_ nn := buffer_after nn W1 B1 X Hb]> m))
    W1 B1 W2 B2 (buffer_after nn W1 B1 X Hb).
Proof.
  intros Hw Hc. apply wired_insert; [|by destruct Hc].
  eapply wired_buffer; [done|]. destruct Hw.
  rewrite length_buffer_after; [done|]. unfold HIDDEN_CAPACITY in *. lia.
Qed.

Lemma lookup_output_after nn input output m (W1 B1 W2 B2 Hb X O : list F) :
  wired nn m W1 B1 W2 B2 Hb → call_buffers nn m input output X O →
  <[output := output_after nn W1 B1 W2 B2 X Hb O]>
    (<[layer1_output_ nn := buffer_after nn W1 B1 X Hb]> m) !! output
  = Some (output_after nn W1 B1 W2 B2 X Hb O).
Proof.
  intros Hw Hc. eapply block_insert_eq. rewrite block_insert_ne; [by destruct Hc|].
  destruct Hc. split_notin. done.
Qed.

Lemma lookup_buffer_after nn input output m (W1 B1 W2 B2 Hb X O : list F) :
  wired nn m W1 B1 W2 B2 Hb → call_buffers nn m input output X O →
  <[output := output_after nn W1 B1 W2 B2 X Hb O]>
    (<[layer1_output_ nn := buffer_after nn W1 B1 X Hb]> m) !! layer1_output_ nn
  = Some (buffer_after nn W1 B1 X Hb).
Proof.
  intros Hw Hc. rewrite block_insert_ne; [|destruct Hc; split_notin; done].
  eapply block_insert_eq. by destruct Hw.
Qed.

End NetworkInvariants.

Lemma id_tail_zero : tail_zero Examples.id_nn Examples.id_Hb.
Proof. intros i _ Hi. by apply lookup_replicate_2. Qed.

(** ** More facts of binary32 arithmetic *)

Section Binary32Cases.
Import Binary32.

Lemma relu1_cases (x : float32) :
  (SFltb x b32_zero = true → Activation.relu1 x = b32_zero)
  ∧ (SFleb b32_zero x = true → same_value (Activation.relu1 x) x)
  ∧ (SFltb b32_zero x = true → Activation.relu1 x = x)
  ∧ (is_nan x = true → Activation.relu1 x = b32_zero)
  ∧ SFltb (Activation.relu1 x) b32_zero = false.
Proof.
  destruct x as [[]|[]| |[] mx ex]; cbv; repeat split; intros; try done;
    try (by left); try (by right).
Qed.

Lemma is_finite_nth (X : list float32) n i :
  all_finite (take n X) → i < n → is_finite (nth i X b32_zero) = true.
Proof.
  intros HX Hi. destruct (nth_lookup_or_length X i b32_zero) as [Hx|Hx].
  - apply (Forall_lookup_1 _ _ i _ HX). by rewrite lookup_take_lt.
  - by rewrite nth_overflow by lia.
Qed.

(** [softmax] of three equal scores in binary32: the differences [x - max]
    are [0.0f] and the three quotients are [1.0f / 3.0f], whatever the
    magnitude of the scores. *)
Lemma softmax_list_equal_scores (LM : Libm float32) (k : float32) :
  is_finite k = true → f_expf b32_zero = b32_one →
  softmax_list [k; k; k] = [Examples.third; Examples.third; Examples.third].
Proof.
  intros Hk Hexp. unfold softmax_list, exp_shifted.
  assert (Hmax : max_of [k; k; k] = k).
  { simpl. unfold running_max. simpl.
    assert (Hirr : SFltb k k = false).
    { destruct k as [[]|[]| |[] mk ek]; try done; unfold SFltb; simpl;
        by rewrite Z.compare_refl, Pos.compare_cont_refl. }
    by rewrite !Hirr. }
  rewrite Hmax.
  assert (Hsub : f_sub k k = b32_zero).
  { destruct k as [[]|[]| |[] mk ek]; try done; simpl;
      unfold cond_Zopp; rewrite Z.min_id;
      unfold shl_align; rewrite Z.sub_diag; simpl;
      by rewrite ?Z.sub_diag, ?Z.pos_sub_diag. }
  change ((λ x, f_expf (f_sub x k)) <$> [k; k; k])
    with [f_expf (f_sub k k); f_expf (f_sub k k); f_expf (f_sub k k)].
  rewrite Hsub, Hexp. by vm_compute.
Qed.

End Binary32Cases.

(** ** The order of binary32 *)

Section Binary32Order.
Import Binary32.
Open Scope Z_scope.

Lemma SFltb_rank x y :
  SFltb x y = true ↔ ∃ a b, rank x = Some a ∧ rank y = Some b ∧ lex a b.
Proof.
  unfold SFltb, lex.
  destruct x as [[]|[]| |[] mx ex], y as [[]|[]| |[] my ey]; simpl;
    try (split; [done|intros (a & b & Ha & Hb & Hlt); simplify_eq; simpl in *; lia]);
    try (split; [intros _; eexists _, _; repeat split; simpl; lia|done]).
  - destruct (Z.compare_spec ex ey) as [->|Hlt|Hlt]; simpl.
    + rewrite Pos.compare_cont_spec. simpl.
      destruct (Pos.compare_spec mx my) as [->|Hm|Hm]; simpl;
        (split; [try done; intros _; eexists _, _; repeat split; simpl; lia
                |intros (a & b & Ha & Hb & Hl); simplify_eq; simpl in *; try done; lia]).
    + split; [done|intros (a & b & Ha & Hb & Hl); simplify_eq; simpl in *; lia].
    + split; [intros _; eexists _, _; repeat split; simpl; lia|done].
  - destruct (Z.compare_spec ex ey) as [->|Hlt|Hlt]; simpl.
    + rewrite Pos.compare_cont_spec. simpl.
      destruct (Pos.compare_spec mx my) as [->|Hm|Hm]; simpl;
        (split; [try done; intros _; eexists _, _; repeat split; simpl; lia
                |intros (a & b & Ha & Hb & Hl); simplify_eq; simpl in *; try done; lia]).
    + split; [intros _; eexists _, _; repeat split; simpl; lia|done].
    + split; [done|intros (a & b & Ha & Hb & Hl); simplify_eq; simpl in *; lia].
Qed.

Lemma SFltb_irrefl x : SFltb x x = false.
Proof.
  apply not_true_is_false. intros (a & b & Ha & Hb & Hl)%SFltb_rank.
  simplify_eq. unfold lex in Hl. lia.
Qed.

Lemma SFltb_trans x y z : SFltb x y = true → SFltb y z = true → SFltb x z = true.
Proof.
  intros (a & b & Ha & Hb & Hab)%SFltb_rank (b' & c & Hb' & Hc & Hbc)%SFltb_rank.
  simplify_eq. apply SFltb_rank. exists a, c. repeat split; try done.
  unfold lex in *. lia.
Qed.

Lemma SFltb_asym x y : SFltb x y = true → SFltb y x = false.
Proof.
  intros Hxy. apply not_true_is_false. intros Hyx.
  pose proof (SFltb_trans _ _ _ Hxy Hyx) as Hxx. by rewrite SFltb_irrefl in Hxx.
Qed.

End Binary32Order.

(** ** The scan of [predict_class] *)

Section Argmax.
Import Binary32.
Context (LM : Libm float32).

Lemma argmax_three (p0 p1 p2 : float32) :
  argmax [p0; p1; p2]
  = (if f_gt p1 p0 then if f_gt p2 p1 then 2 else 1
     else if f_gt p2 p0 then 2 else 0)%Z.
Proof.
  unfold argmax. simpl.
  destruct (SFltb p0 p1); simpl; [by destruct (SFltb p1 p2)|by destruct (SFltb p0 p2)].
Qed.

(** No element is greater than the one [argmax] selects. *)
Lemma argmax_three_max (p0 p1 p2 : float32) :
  ∃ pk, [p0; p1; p2] !! Z.to_nat (argmax [p0; p1; p2]) = Some pk
      ∧ Forall (λ q, f_gt q pk = false) [p0; p1; p2].
Proof.
  rewrite argmax_three. simpl.
  destruct (SFltb p0 p1) eqn:H01.
  - destruct (SFltb p1 p2) eqn:H12; eexists; (split; [reflexivity|]);
      repeat constructor; simpl;
      eauto using SFltb_irrefl, SFltb_asym, SFltb_trans.
  - destruct (SFltb p0 p2) eqn:H02; eexists; (split; [reflexivity|]);
      repeat constructor; simpl;
      eauto using SFltb_irrefl, SFltb_asym, SFltb_trans.
    apply not_true_is_false. intros H21.
    pose proof (SFltb_trans _ _ _ H02 H21). congruence.
Qed.

(** With all-zero tables the class probabilities are three times
    [1.0f / 3.0f], whatever the input holds. *)
Lemma forward_zero W1 B1 W2 B2 X n_in :
  all_zero W1 → all_zero B1 → all_zero W2 → all_zero B2 →
  f_expf b32_zero = b32_one →
  forward W1 B1 W2 B2 X n_in 18 3 = [Examples.third; Examples.third; Examples.third].
Proof.
  intros HW1 HB1 HW2 HB2 Hexp. unfold forward.
  rewrite hidden_zero, dense_zero_finite by
    (done || (intros; by rewrite nth_replicate_zero)).
  by apply softmax_list_equal_scores.
Qed.

End Argmax.

(** ** Running the code *)

(** Identity layers with zero biases on the input [[1.0, 2.0]]: the output is
    [softmax([1.0, 2.0])], about [[0.2689, 0.7311]]. *)
Example identity_network_end_to_end :
  ∃ m', Network.predict (LM := Binary32.libm_ref) Examples.id_nn 4 5 Examples.id_mem
        = Ok tt m'
      ∧ m' !! 5 = Some [S754_finite false 9024177 (-25);
                        S754_finite false 12265128 (-24)].
Proof. eexists. split; by vm_compute. Qed.

(** [softmax] reads [data[0]] whatever [size] is: on an empty block it
    faults, in every arithmetic. *)
Lemma softmax_reads_first_element {F : Type} {FA : FloatArith F} {LM : Libm F}
    data size (m : memory F) :
  m !! data = Some [] → Activation.softmax data size m = Fault (OobRead data 0).
Proof. intros Hd. unfold Activation.softmax, bind, load. by rewrite Hd. Qed.

(** ** Rounding in binary32 *)

Section Digits.
Import Binary32.
Open Scope Z_scope.

Lemma fexp_eq e : fexp prec emax e = Z.max (e - 24) (-149).
Proof. reflexivity. Qed.

Lemma pow2_pos a : 0 ≤ a → 0 < 2 ^ a.
Proof. intros. by apply Z.pow_pos_nonneg. Qed.

Lemma pow2_add a b : 0 ≤ a → 0 ≤ b → 2 ^ (a + b) = 2 ^ a * 2 ^ b.
Proof. intros. by apply Z.pow_add_r. Qed.

Lemma pow2_le a b : 0 ≤ a → a ≤ b → 2 ^ a ≤ 2 ^ b.
Proof. intros. apply Z.pow_le_mono_r; lia. Qed.

Lemma pow2_lt a b : 0 ≤ a → a < b → 2 ^ a < 2 ^ b.
Proof. intros. apply Z.pow_lt_mono_r; lia. Qed.

Lemma Zdigits2_bounds m :
  0 < m → 1 ≤ Zdigits2 m ∧ 2 ^ (Zdigits2 m - 1) ≤ m < 2 ^ Zdigits2 m.
Proof.
  destruct m as [|p|p]; try lia. intros _. simpl.
  induction p as [p IH|p IH|]; simpl digits2_pos.
  - rewrite Pos2Z.inj_succ. set (d := Z.pos (digits2_pos p)) in *.
    replace (Z.succ d - 1) with (Z.succ (d - 1)) by lia.
    rewrite !Z.pow_succ_r by lia. lia.
  - rewrite Pos2Z.inj_succ. set (d := Z.pos (digits2_pos p)) in *.
    replace (Z.succ d - 1) with (Z.succ (d - 1)) by lia.
    rewrite !Z.pow_succ_r by lia. lia.
  - simpl. lia.
Qed.

Lemma Zdigits2_unique m d : 0 < m → 2 ^ (d - 1) ≤ m < 2 ^ d → Zdigits2 m = d.
Proof.
  intros Hm [Hlo Hhi].
  destruct (Zdigits2_bounds m Hm) as (HD & HDlo & HDhi).
  set (D := Zdigits2 m) in *.
  assert (0 < d).
  { destruct (Z.lt_trichotomy d 0) as [?|[->|?]]; [|simpl in Hhi; lia|done].
    rewrite Z.pow_neg_r in Hhi; lia. }
  destruct (Z.lt_trichotomy D d) as [Hlt|[Heq|Hgt]]; [|done|].
  - pose proof (pow2_le D (d - 1)). lia.
  - pose proof (pow2_le d (D - 1)). lia.
Qed.

Lemma Zdigits2_nonneg m : 0 ≤ m → 0 ≤ Zdigits2 m.
Proof.
  intros. destruct (Z.eq_dec m 0) as [->|]; [done|].
  pose proof (Zdigits2_bounds m). lia.
Qed.

Lemma Zdigits2_mono a b : 0 < a → a ≤ b → Zdigits2 a ≤ Zdigits2 b.
Proof.
  intros Ha Hab.
  destruct (Zdigits2_bounds a) as (? & ? & ?); [done|].
  destruct (Zdigits2_bounds b) as (? & ? & ?); [lia|].
  destruct (Z.le_gt_cases (Zdigits2 a) (Zdigits2 b)); [done|].
  pose proof (pow2_le (Zdigits2 b) (Zdigits2 a - 1)). lia.
Qed.

(** Digits of [m * 2^k] and of [m / 2^k]. *)
Lemma Zdigits2_shl m k : 0 < m → 0 ≤ k → Zdigits2 (m * 2 ^ k) = Zdigits2 m + k.
Proof.
  intros Hm Hk. destruct (Zdigits2_bounds m Hm) as (? & ? & ?).
  pose proof (pow2_pos k Hk).
  apply Zdigits2_unique; [nia|].
  replace (Zdigits2 m + k - 1) with (Zdigits2 m - 1 + k) by lia.
  rewrite !pow2_add by lia. nia.
Qed.

Lemma Zdigits2_shr m k :
  0 < m → 0 ≤ k → k < Zdigits2 m → Zdigits2 (m / 2 ^ k) = Zdigits2 m - k.
Proof.
  intros Hm Hk Hkd. destruct (Zdigits2_bounds m Hm) as (? & Hlo & Hhi).
  pose proof (pow2_pos k Hk).
  assert (H1 : 2 ^ (Zdigits2 m - 1) = 2 ^ k * 2 ^ (Zdigits2 m - k - 1)).
  { rewrite <- pow2_add by lia. f_equal. lia. }
  assert (H2 : 2 ^ Zdigits2 m = 2 ^ k * 2 ^ (Zdigits2 m - k)).
  { rewrite <- pow2_add by lia. f_equal. lia. }
  assert (2 ^ (Zdigits2 m - k - 1) ≤ m / 2 ^ k).
  { apply Z.div_le_lower_bound; lia. }
  assert (m / 2 ^ k < 2 ^ (Zdigits2 m - k)).
  { apply Z.div_lt_upper_bound; lia. }
  pose proof (pow2_pos (Zdigits2 m - k - 1)).
  apply Zdigits2_unique; [lia|].
  replace (Zdigits2 m - k - 1) with (Zdigits2 m - k - 1) by lia. lia.
Qed.

Lemma Zdiv_small_pow m k : 0 ≤ m → Zdigits2 m ≤ k → m / 2 ^ k = 0.
Proof.
  intros Hm Hk. destruct (Z.eq_dec m 0) as [->|]; [apply Zdiv_0_l|].
  destruct (Zdigits2_bounds m) as (? & ? & ?); [lia|].
  apply Z.div_small. pose proof (pow2_le (Zdigits2 m) k). lia.
Qed.

End Digits.

Section Shift.
Import Binary32.
Open Scope Z_scope.

Lemma iter_pos_iter {A} (f : A → A) p x : SpecFloat.iter_pos f p x = Pos.iter f x p.
Proof.
  revert x. induction p as [p IH|p IH|]; intros x; simpl.
  - rewrite !IH. by rewrite !Pos.iter_swap.
  - by rewrite !IH.
  - done.
Qed.

Lemma shr_1_spec m r s :
  0 ≤ m →
  shr_1 {| shr_m := m; shr_r := r; shr_s := s |}
  = {| shr_m := m / 2; shr_r := Z.odd m; shr_s := r || s |}.
Proof.
  intros Hm. rewrite <- Z.div2_div. destruct m as [|[p|p|]|]; try done; lia.
Qed.

(** [p] shifts to the right leave the quotient by [2^p]; the two flags are
    clear exactly when they were and no bit set was shifted out. *)
Lemma shr_iter p m r s :
  0 ≤ m →
  let mrs := Pos.iter shr_1 {| shr_m := m; shr_r := r; shr_s := s |} p in
  shr_m mrs = m / 2 ^ Z.pos p
  ∧ (shr_r mrs || shr_s mrs = false ↔ r || s = false ∧ m mod 2 ^ Z.pos p = 0).
Proof.
  intros Hm. induction p as [|p IH] using Pos.peano_ind; cbv zeta.
  - cbn [Pos.iter]. rewrite shr_1_spec by done. simpl. split; [done|].
    change (2 ^ 1) with 2. rewrite Zmod_odd.
    destruct (Z.odd m), r, s; simpl; split; intros; try done; try lia.
    all: by destruct H.
  - rewrite Pos.iter_succ.
    cbv zeta in IH.
    destruct (Pos.iter shr_1 _ p) as [mp rp sp]. simpl in IH.
    destruct IH as [-> IH].
    assert (0 < 2 ^ Z.pos p) by (by apply pow2_pos).
    rewrite shr_1_spec by (apply Z.div_pos; lia). simpl.
    rewrite Pos2Z.inj_succ, Z.pow_succ_r by lia.
    split.
    + rewrite Z.div_div by lia. f_equal. lia.
    + rewrite (Z.mul_comm 2), Z.rem_mul_r, Zmod_odd by lia.
      pose proof (Z.mod_pos_bound m (2 ^ Z.pos p) ltac:(lia)).
      destruct (Z.odd (m / 2 ^ Z.pos p)); simpl.
      * split; [done|]. intros [_ ?]. nia.
      * rewrite IH. split; intros [? ?]; split; try done; lia.
Qed.

Lemma loc_of_shr_record_exact mrs :
  loc_of_shr_record mrs = loc_Exact ↔ shr_r mrs || shr_s mrs = false.
Proof. by destruct mrs as [m [] []]. Qed.

Lemma shr_record_of_loc_spec m l :
  shr_m (shr_record_of_loc m l) = m
  ∧ (shr_r (shr_record_of_loc m l) || shr_s (shr_record_of_loc m l) = false
     ↔ l = loc_Exact).
Proof. by destruct l as [|[]]. Qed.

Lemma round_nearest_even_spec m l :
  round_nearest_even m l = m
  ∨ (round_nearest_even m l = m + 1 ∧ l ≠ loc_Exact).
Proof.
  destruct l as [|[]]; simpl; auto.
  destruct (Z.even m); auto.
Qed.

Lemma iter_xO m d : Z.pos (Pos.iter xO m d) = Z.pos m * 2 ^ Z.pos d.
Proof.
  induction d as [|d IH] using Pos.peano_ind; simpl; [lia|].
  rewrite Pos.iter_succ, Pos2Z.inj_xO, IH, Pos2Z.inj_succ, Z.pow_succ_r; lia.
Qed.

(** [shl_align] keeps the value and lowers the exponent to [e'] when
    [e' < ex]. *)
Lemma shl_align_spec mx ex e' :
  let '(mz, ez) := shl_align mx ex e' in
  ez = Z.min ex e' ∧ Z.pos mz = Z.pos mx * 2 ^ (ex - ez).
Proof.
  unfold shl_align. destruct (e' - ex) as [|d|d] eqn:Hd.
  - rewrite Z.min_l, Z.sub_diag by lia. simpl. lia.
  - rewrite Z.min_l, Z.sub_diag by lia. simpl. lia.
  - rewrite Z.min_r by lia. split; [done|].
    rewrite iter_xO. do 2 f_equal. lia.
Qed.

End Shift.

Section RoundAux.
Import Binary32.
Open Scope Z_scope.

Lemma canonical_mantissa_eq m e :
  canonical_mantissa prec emax m e = true
  ↔ Z.max (Zdigits2 (Z.pos m) + e - 24) (-149) = e.
Proof. unfold canonical_mantissa. rewrite fexp_eq. simpl. apply Z.eqb_eq. Qed.

(** The second half of [binary_round_aux]: a mantissa of at most 24 bits on
    its grid is kept, and [2^24] is renormalised to [2^23]. *)
Lemma normalise_spec sx m1 E :
  0 ≤ m1 → m1 ≤ 2 ^ 24 → -149 ≤ E → (E ≠ -149 → 2 ^ 23 ≤ m1) →
  rounded_to sx m1 E
    (let '(mrs, e) := shr_fexp prec emax m1 E loc_Exact in
     match shr_m mrs with
     | 0 => S754_zero sx
     | Z.pos m => if e <=? emax - prec then S754_finite sx m e else S754_infinity sx
     | Z.neg _ => S754_nan
     end).
Proof.
  intros Hm Hle HE Hnorm. unfold shr_fexp. rewrite fexp_eq.
  destruct (Z.eq_dec m1 0) as [->|Hne].
  { simpl Zdigits2. replace (Z.max (0 + E - 24) (-149) - E) with
      (Z.max (-24) (-149 - E)) by lia.
    unfold shr. destruct (Z.max (-24) (-149 - E)) eqn:Hk; try lia.
    simpl. by constructor. }
  destruct (Zdigits2_bounds m1) as (Hd1 & Hlo & Hhi); [lia|].
  destruct (Z.eq_dec m1 (2 ^ 24)) as [->|Hne2].
  { replace (Zdigits2 (2 ^ 24)) with 25 by done.
    replace (Z.max (25 + E - 24) (-149) - E) with 1 by lia.
    simpl. destruct (E + 1 <=? emax - prec) eqn:Hov.
    - apply rounded_finite; try lia.
      all: try (apply canonical_mantissa_eq; simpl Zdigits2; lia).
      all: replace (E + 1 - E) with 1 by lia; reflexivity.
    - eapply (rounded_overflow _ _ _ 8388608 (E + 1)); try lia.
      all: try (apply canonical_mantissa_eq; simpl Zdigits2; lia).
      all: replace (E + 1 - E) with 1 by lia; reflexivity. }
  assert (Hd24 : Zdigits2 m1 ≤ 24).
  { destruct (Z.le_gt_cases (Zdigits2 m1) 24); [done|].
    pose proof (pow2_le 24 (Zdigits2 m1 - 1)). lia. }
  assert (HdE : E ≠ -149 → Zdigits2 m1 = 24).
  { intros HE'. specialize (Hnorm HE').
    destruct (Z.le_gt_cases 24 (Zdigits2 m1)); [lia|].
    pose proof (pow2_le (Zdigits2 m1) 23). lia. }
  replace (Z.max (Zdigits2 m1 + E - 24) (-149) - E) with 0 by lia.
  simpl. destruct m1 as [|mf|]; try lia. simpl.
  assert (Hcan : canonical_mantissa prec emax mf E = true).
  { apply canonical_mantissa_eq. lia. }
  destruct (E <=? emax - prec) eqn:Hov.
  - apply rounded_finite; try lia; try done.
    all: try (rewrite Z.sub_diag; simpl; lia).
  - apply (rounded_overflow _ _ _ mf E); try lia; try done.
    all: try (rewrite Z.sub_diag; simpl; lia).
Qed.

(** [binary_round_aux] on a mantissa [m] with at least 24 bits to its grid:
    the mantissa is divided by [2^(E - e)], the quotient [Q] is kept or
    incremented (only when something was lost), and made into a float. *)
Lemma binary_round_aux_spec sx m e l :
  0 ≤ m → e ≤ fexp prec emax (Zdigits2 m + e) →
  let E := fexp prec emax (Zdigits2 m + e) in
  let Q := m / 2 ^ (E - e) in
  ∃ m1, (m1 = Q ∨ (m1 = Q + 1 ∧ ¬ (l = loc_Exact ∧ m mod 2 ^ (E - e) = 0)))
      ∧ Q < 2 ^ 24 ∧ (E ≠ -149 → 2 ^ 23 ≤ Q) ∧ -149 ≤ E
      ∧ rounded_to sx m1 E (binary_round_aux prec emax sx m e l).
Proof.
  intros Hm Hk E Q.
  assert (HE : E = Z.max (Zdigits2 m + e - 24) (-149)) by apply fexp_eq.
  fold E in Hk.
  pose proof (Zdigits2_nonneg m Hm) as Hd.
  (* the first shift *)
  assert (Hshift : ∃ mrs, shr_fexp prec emax m e l = (mrs, E)
            ∧ shr_m mrs = Q
            ∧ (shr_r mrs || shr_s mrs = false
               ↔ l = loc_Exact ∧ m mod 2 ^ (E - e) = 0)).
  { unfold shr_fexp. fold E. unfold shr.
    destruct (shr_record_of_loc_spec m l) as [Hm0 Hfl].
    destruct (E - e) as [|p|p] eqn:HK; try lia.
    - eexists. split; [f_equal; lia|]. unfold Q.
      split; [by rewrite Z.div_1_r|]. rewrite Z.mod_1_r, Hfl. tauto.
    - destruct (shr_record_of_loc m l) as [m0 r0 s0] eqn:Hrec. simpl in Hm0, Hfl.
      subst m0. rewrite iter_pos_iter.
      destruct (shr_iter p m r0 s0 Hm) as [Hq Hex].
      eexists. split; [f_equal; lia|]. unfold Q.
      split; [done|]. rewrite Hex, Hfl. tauto. }
  destruct Hshift as (mrs & Hshr & HQ & Hex).
  (* the quotient has at most 24 bits, and 24 on a grid above the least *)
  assert (HK : 0 ≤ E - e) by lia.
  assert (HQ24 : Q < 2 ^ 24 ∧ (E ≠ -149 → 2 ^ 23 ≤ Q) ∧ 0 ≤ Q).
  { unfold Q. destruct (Z.eq_dec m 0) as [->|Hne].
    { rewrite Zdiv_0_l. simpl in HE. split; [done|]. split; [|done].
      simpl in Hk. lia. }
    destruct (Z.le_gt_cases (Zdigits2 m) (E - e)) as [Hsmall|Hbig].
    { rewrite Zdiv_small_pow by lia. split; [done|]. split; [lia|done]. }
    pose proof (Zdigits2_shr m (E - e) ltac:(lia) HK Hbig) as HdQ.
    assert (0 < m / 2 ^ (E - e)).
    { apply Z.div_str_pos. split; [by apply pow2_pos|].
      destruct (Zdigits2_bounds m) as (? & ? & ?); [lia|].
      pose proof (pow2_le (E - e) (Zdigits2 m - 1)). lia. }
    destruct (Zdigits2_bounds (m / 2 ^ (E - e))) as (? & Hlo & Hhi); [done|].
    rewrite HdQ in Hlo, Hhi. split; [|split; [|lia]].
    - pose proof (pow2_le (Zdigits2 m - (E - e)) 24). lia.
    - intros HE'. replace (Zdigits2 m - (E - e) - 1) with 23 in Hlo by lia. done. }
  destruct HQ24 as (HQlt & HQnorm & HQ0).
  destruct (round_nearest_even_spec (shr_m mrs) (loc_of_shr_record mrs))
    as [Hrne|[Hrne Hinex]].
  - exists Q. split; [by left|]. split; [done|]. split; [done|]. split; [lia|].
    unfold binary_round_aux. rewrite Hshr, Hrne, HQ.
    apply normalise_spec; lia.
  - exists (Q + 1). split.
    { right. split; [done|]. intros Hexact. apply Hinex.
      apply loc_of_shr_record_exact. by apply Hex. }
    split; [done|]. split; [done|]. split; [lia|].
    unfold binary_round_aux. rewrite Hshr, Hrne, HQ.
    apply normalise_spec; lia.
Qed.

(** [binary_round] first brings the mantissa to its grid, exactly. *)
Lemma binary_round_spec sx mx ex :
  ∃ m e, 0 < m ∧ e ≤ ex ∧ m = Z.pos mx * 2 ^ (ex - e)
       ∧ e ≤ fexp prec emax (Zdigits2 m + e)
       ∧ binary_round prec emax sx mx ex
         = binary_round_aux prec emax sx m e loc_Exact.
Proof.
  unfold binary_round.
  pose proof (shl_align_spec mx ex (fexp prec emax (Z.pos (digits2_pos mx) + ex)))
    as Hal.
  destruct (shl_align _ _ _) as [mz ez]. destruct Hal as [Hez Hmz].
  exists (Z.pos mz), ez. split; [lia|]. split; [lia|]. split; [done|].
  split; [|done].
  rewrite Hmz, Zdigits2_shl by lia. change (Zdigits2 (Z.pos mx)) with (Z.pos (digits2_pos mx)).
  replace (Z.pos (digits2_pos mx) + (ex - ez) + ez) with (Z.pos (digits2_pos mx) + ex)
    by lia. lia.
Qed.

End RoundAux.

Section RealValue.
Import Binary32.
Open Scope Z_scope.

Lemma bpow_pos e : (0 < bpow e)%R.
Proof. apply powerRZ_lt. lra. Qed.

Lemma bpow_add a b : bpow (a + b) = (bpow a * bpow b)%R.
Proof. apply powerRZ_add. lra. Qed.

Lemma bpow_IZR k : 0 ≤ k → bpow k = IZR (2 ^ k).
Proof.
  intros Hk. unfold bpow. destruct k as [|p|p]; try lia; [done|].
  symmetry. apply (Zpower_pos_powerRZ 2 p).
Qed.

Lemma bpow_le a b : a ≤ b → (bpow a <= bpow b)%R.
Proof.
  intros Hab. replace b with (a + (b - a)) by lia.
  rewrite bpow_add, (bpow_IZR (b - a)) by lia.
  pose proof (bpow_pos a). pose proof (pow2_pos (b - a) ltac:(lia)).
  assert (1 <= IZR (2 ^ (b - a)))%R by (apply IZR_le; lia).
  nra.
Qed.

Lemma F2R_0 e : F2R 0 e = 0%R.
Proof. unfold F2R. lra. Qed.

Lemma F2R_shift m e c : c ≤ e → F2R m e = F2R (m * 2 ^ (e - c)) c.
Proof.
  intros Hc. unfold F2R. replace e with ((e - c) + c) at 1 by lia.
  rewrite bpow_add, mult_IZR, (bpow_IZR (e - c)) by lia. lra.
Qed.

Lemma F2R_lt a b c : (F2R a c < F2R b c)%R ↔ a < b.
Proof.
  unfold F2R. pose proof (bpow_pos c). split.
  - intros Hlt. apply lt_IZR. nra.
  - intros Hlt%IZR_lt. nra.
Qed.

Lemma F2R_le a b c : (F2R a c <= F2R b c)%R ↔ a ≤ b.
Proof.
  unfold F2R. pose proof (bpow_pos c). split.
  - intros Hle. apply le_IZR. nra.
  - intros Hle%IZR_le. nra.
Qed.

Lemma F2R_nonneg a c : (0 <= F2R a c)%R ↔ 0 ≤ a.
Proof. rewrite <- (F2R_0 c). apply F2R_le. Qed.

Lemma F2R_nonpos a c : (F2R a c <= 0)%R ↔ a ≤ 0.
Proof. rewrite <- (F2R_0 c). apply F2R_le. Qed.

Lemma F2R_inj a b c : F2R a c = F2R b c → a = b.
Proof.
  intros Heq. apply Z.le_antisymm; apply (F2R_le _ _ c); lra.
Qed.

Lemma F2R_plus a b c : (F2R a c + F2R b c)%R = F2R (a + b) c.
Proof. unfold F2R. rewrite plus_IZR. lra. Qed.

Lemma F2R_opp a c : (- F2R a c)%R = F2R (- a) c.
Proof. unfold F2R. rewrite opp_IZR. lra. Qed.

Lemma F2R_lt_bpow m e k : 0 ≤ k → m < 2 ^ k → (F2R m e < bpow (k + e))%R.
Proof.
  intros Hk Hm. rewrite bpow_add, (bpow_IZR k) by done.
  apply (F2R_lt m (2 ^ k) e). done.
Qed.

Lemma F2R_ge_bpow m e k : 0 ≤ k → 2 ^ k ≤ m → (bpow (k + e) <= F2R m e)%R.
Proof.
  intros Hk Hm. rewrite bpow_add, (bpow_IZR k) by done.
  apply (F2R_le (2 ^ k) m e). done.
Qed.

Lemma emax_prec : emax - prec = 104.
Proof. reflexivity. Qed.

Lemma canonical_bounds m e :
  canonical_mantissa prec emax m e = true →
  -149 ≤ e ∧ Z.pos m < 2 ^ 24 ∧ (e ≠ -149 → 2 ^ 23 ≤ Z.pos m).
Proof.
  intros Hc%canonical_mantissa_eq.
  destruct (Zdigits2_bounds (Z.pos m)) as (Hd & Hlo & Hhi); [lia|].
  set (d := Zdigits2 (Z.pos m)) in *.
  split; [lia|]. split.
  - pose proof (pow2_le d 24). lia.
  - intros He. replace (d - 1) with 23 in Hlo by lia. done.
Qed.

Lemma valid_finite s m e :
  valid_binary prec emax (S754_finite s m e) = true
  ↔ canonical_mantissa prec emax m e = true ∧ e ≤ 104.
Proof.
  simpl. unfold bounded. rewrite andb_true_iff, Z.leb_le, emax_prec. done.
Qed.

(** Of two floats in canonical form, the one with the smaller exponent is
    the smaller. *)
Lemma canonical_lt_exp m1 e1 m2 e2 :
  canonical_mantissa prec emax m1 e1 = true →
  canonical_mantissa prec emax m2 e2 = true →
  e1 < e2 → (F2R (Z.pos m1) e1 < F2R (Z.pos m2) e2)%R.
Proof.
  intros (? & ? & ?)%canonical_bounds (? & ? & ?)%canonical_bounds Hlt.
  pose proof (F2R_lt_bpow (Z.pos m1) e1 24 ltac:(lia) ltac:(done)).
  pose proof (F2R_ge_bpow (Z.pos m2) e2 23 ltac:(lia) ltac:(lia)).
  pose proof (bpow_le (24 + e1) (23 + e2) ltac:(lia)). lra.
Qed.

(** A float in canonical form against the grid [2^E] of a quotient [Q] that
    has 24 bits (or lies on the least grid): it is a point of the grid, or
    below all the points [Q * 2^E] can be. *)
Lemma grid_below ma ea Q E :
  canonical_mantissa prec emax ma ea = true →
  0 ≤ Q → (E ≠ -149 → 2 ^ 23 ≤ Q) → -149 ≤ E →
  (F2R (Z.pos ma) ea < F2R (Q + 1) E)%R → (F2R (Z.pos ma) ea <= F2R Q E)%R.
Proof.
  intros (? & ? & ?)%canonical_bounds HQ HQn HE Hlt.
  destruct (Z.le_gt_cases E ea) as [Hge|Hlt'].
  - rewrite (F2R_shift _ ea E) in * by done.
    apply F2R_lt in Hlt. apply F2R_le. lia.
  - pose proof (F2R_lt_bpow (Z.pos ma) ea 24 ltac:(lia) ltac:(done)).
    pose proof (F2R_ge_bpow Q E 23 ltac:(lia) ltac:(lia)).
    pose proof (bpow_le (24 + ea) (23 + E) ltac:(lia)). lra.
Qed.

Lemma grid_above ma ea Q E :
  canonical_mantissa prec emax ma ea = true →
  0 ≤ Q → (E ≠ -149 → 2 ^ 23 ≤ Q) → -149 ≤ E →
  (F2R Q E < F2R (Z.pos ma) ea)%R → (F2R (Q + 1) E <= F2R (Z.pos ma) ea)%R.
Proof.
  intros (? & ? & ?)%canonical_bounds HQ HQn HE Hlt.
  destruct (Z.le_gt_cases E ea) as [Hge|Hlt'].
  - rewrite (F2R_shift _ ea E) in * by done.
    apply F2R_lt in Hlt. apply F2R_le. lia.
  - pose proof (F2R_lt_bpow (Z.pos ma) ea 24 ltac:(lia) ltac:(done)).
    pose proof (F2R_ge_bpow Q E 23 ltac:(lia) ltac:(lia)).
    pose proof (bpow_le (24 + ea) (23 + E) ltac:(lia)). lra.
Qed.

Lemma nonneg_float_B2R a : nonneg_float a → (0 <= B2R a)%R.
Proof.
  intros [_ [->|(m & e & ->)]]; simpl; [lra|].
  unfold F2R. pose proof (bpow_pos e).
  assert (0 < IZR (Z.pos m))%R by (apply IZR_lt; lia). nra.
Qed.

(** What [rounded_to] says in terms of values. *)
Lemma rounded_to_nonneg m1 E r :
  rounded_to false m1 E r → 0 ≤ m1 →
  (r = S754_infinity false
   ∧ ∃ mf ef, canonical_mantissa prec emax mf ef = true ∧ 104 < ef
              ∧ F2R (Z.pos mf) ef = F2R m1 E)
  ∨ (nonneg_float r ∧ B2R r = F2R m1 E).
Proof.
  intros Hr Hm1. destruct Hr as [->|mf ef Hef Hmf Hcan Hfin|mf ef Hef Hmf Hcan Hov].
  - right. split; [split; [done|by left]|]. simpl. by rewrite F2R_0.
  - right. rewrite emax_prec in Hfin. split.
    + split; [by apply valid_finite|]. right. by eexists _, _.
    + simpl. rewrite (F2R_shift _ ef E) by done. by rewrite Hmf.
  - left. rewrite emax_prec in Hov. split; [done|].
    exists mf, ef. split; [done|]. split; [done|].
    rewrite (F2R_shift _ ef E) by done. by rewrite Hmf.
Qed.

(** [binary_round_aux] rounds: [m * 2^e <= x < (m + 1) * 2^e] is the real
    number the mantissa, the exponent and the location stand for. *)
Lemma binary_round_aux_rounded m e l (x : R) :
  0 ≤ m → e ≤ fexp prec emax (Zdigits2 m + e) →
  (F2R m e <= x < F2R (m + 1) e)%R →
  (l = loc_Exact ↔ x = F2R m e) →
  rounded x (binary_round_aux prec emax false m e l).
Proof.
  intros Hm Hk [Hlo Hhi] Hex.
  destruct (binary_round_aux_spec false m e l Hm Hk)
    as (m1 & Hm1 & HQlt & HQnorm & HE & Hr).
  set (E := fexp prec emax (Zdigits2 m + e)) in *.
  set (Q := m / 2 ^ (E - e)) in *.
  assert (HP : 0 < 2 ^ (E - e)) by (apply pow2_pos; lia).
  assert (HQ0 : 0 ≤ Q) by (apply Z.div_pos; lia).
  assert (Hfloor : Q * 2 ^ (E - e) ≤ m < (Q + 1) * 2 ^ (E - e)).
  { unfold Q. pose proof (Z.mul_div_le m (2 ^ (E - e)) HP).
    pose proof (Z.mul_succ_div_gt m (2 ^ (E - e)) HP). lia. }
  clearbody Q E.
  assert (HxQ : (F2R Q E <= x < F2R (Q + 1) E)%R).
  { rewrite !(F2R_shift _ E e) by lia. split.
    - apply Rle_trans with (F2R m e); [|done]. apply F2R_le. lia.
    - apply Rlt_le_trans with (F2R (m + 1) e); [done|]. apply F2R_le. lia. }
  assert (Hinc : m1 = Q + 1 → (F2R Q E < x)%R).
  { intros HmQ. destruct Hm1 as [?|[_ Hnex]]; [lia|].
    destruct (Req_dec x (F2R Q E)) as [Heq|Hne]; [|lra].
    exfalso. apply Hnex.
    assert (Hmeq : m = Q * 2 ^ (E - e)).
    { apply Z.le_antisymm; [|lia]. apply (F2R_le _ _ e).
      rewrite <- (F2R_shift _ E e) by lia. lra. }
    split.
    - apply Hex. rewrite Heq, (F2R_shift _ E e) by lia. by f_equal.
    - replace (m mod 2 ^ (E - e)) with ((Q * 2 ^ (E - e)) mod 2 ^ (E - e))
        by (by rewrite <- Hmeq).
      apply Z.mod_mul. lia. }
  assert (Hm1' : 0 ≤ m1 ∧ Q ≤ m1 ≤ Q + 1) by lia.
  assert (Hm1Q : (F2R Q E <= F2R m1 E <= F2R (Q + 1) E)%R).
  { split; apply F2R_le; lia. }
  destruct (rounded_to_nonneg m1 E _ Hr ltac:(lia))
    as [(Hinf & mf & ef & Hcan & Hef & Hval)|[Hnn Hval]].
  - (* overflow *)
    rewrite Hinf. split.
    + by left.
    + intros. by left.
    + intros a Ha Hxa. exfalso.
      destruct Ha as [Hva [->|(ma & ea & ->)]].
      * simpl in Hxa.
        assert (0 < IZR (Z.pos mf) * bpow ef)%R.
        { pose proof (bpow_pos ef).
          assert (0 < IZR (Z.pos mf))%R by (apply IZR_lt; lia). nra. }
        unfold F2R in Hval at 1.
        assert (HQle : (F2R Q E <= 0)%R) by lra.
        assert (HQz : Q = 0) by (apply F2R_nonpos in HQle; lia).
        assert (Hm1Q' : m1 = Q).
        { destruct (Z.eq_dec m1 Q); [done|]. exfalso.
          assert (F2R Q E < x)%R by (apply Hinc; lia).
          pose proof (proj2 (F2R_nonneg Q E) HQ0). lra. }
        rewrite Hm1Q', HQz, F2R_0 in Hval. lra.
      * apply valid_finite in Hva as [Hca Hea]. simpl in Hxa.
        pose proof (canonical_lt_exp ma ea mf ef Hca Hcan ltac:(lia)).
        assert (F2R m1 E <= F2R (Z.pos ma) ea)%R; [|lra].
        destruct (Z.eq_dec m1 Q) as [->|]; [lra|].
        replace m1 with (Q + 1) by lia.
        apply grid_above; try done. assert (F2R Q E < x)%R by (apply Hinc; lia). lra.
    + intros [_ [?|(? & ? & ?)]]; done.
  - split.
    + by right.
    + intros a Ha Hax. right. rewrite Hval.
      destruct Ha as [Hva [->|(ma & ea & ->)]].
      * simpl. apply F2R_nonneg. lia.
      * apply valid_finite in Hva as [Hca Hea]. simpl in *.
        apply Rle_trans with (F2R Q E); [|lra].
        apply grid_below; try done. lra.
    + intros a Ha Hxa. split; [done|]. rewrite Hval.
      destruct Ha as [Hva [->|(ma & ea & ->)]].
      * simpl in *.
        assert (HQle : (F2R Q E <= 0)%R) by lra.
        assert (HQz : Q = 0) by (apply F2R_nonpos in HQle; lia).
        assert (Hm1Q' : m1 = Q).
        { destruct (Z.eq_dec m1 Q); [done|]. exfalso.
          assert (F2R Q E < x)%R by (apply Hinc; lia).
          pose proof (proj2 (F2R_nonneg Q E) HQ0). lra. }
        rewrite Hm1Q', HQz, F2R_0. lra.
      * apply valid_finite in Hva as [Hca Hea]. simpl in *.
        destruct (Z.eq_dec m1 Q) as [->|]; [lra|].
        replace m1 with (Q + 1) by lia.
        apply grid_above; try done. assert (F2R Q E < x)%R by (apply Hinc; lia). lra.
    + intros _. rewrite Hval.
      assert (Hgrid : (F2R (Q + 1) E - F2R Q E = bpow E)%R).
      { unfold F2R. rewrite plus_IZR. lra. }
      assert (Habs : (Rabs (F2R m1 E - x) <= bpow E)%R).
      { apply Rabs_le. lra. }
      apply Rle_trans with (bpow E); [done|].
      destruct (Z.eq_dec E (-149)) as [->|HEn].
      * apply Rmax_r.
      * apply Rle_trans with (x * bpow (-23))%R; [|apply Rmax_l].
        pose proof (F2R_ge_bpow Q E 23 ltac:(lia) (HQnorm HEn)) as Hge.
        replace E with (-23 + (23 + E)) at 1 by lia.
        rewrite bpow_add. pose proof (bpow_pos (-23)).
        rewrite Rmult_comm. apply Rmult_le_compat_r; lra.
Qed.

(** A float rounds to itself. *)
Lemma rounded_exact a : nonneg_float a → rounded (B2R a) a.
Proof.
  intros Ha. split.
  - by right.
  - intros. by right.
  - intros. done.
  - intros _. rewrite Rminus_diag, Rabs_R0.
    pose proof (bpow_pos (-149)). pose proof (Rmax_r (B2R a * bpow (-23)) (bpow (-149))).
    lra.
Qed.

End RealValue.

Section Operations.
Import Binary32.
Open Scope Z_scope.

Lemma nonneg_finite a : nonneg_float a → finite_float a.
Proof. intros [? [->|(m & e & ->)]]; by split. Qed.

Lemma B2R_zero s : B2R (S754_zero s) = 0%R.
Proof. done. Qed.

Lemma B2R_pos m e : (0 < B2R (S754_finite false m e))%R.
Proof.
  simpl. unfold F2R. pose proof (bpow_pos e).
  assert (0 < IZR (Z.pos m))%R by (apply IZR_lt; lia). nra.
Qed.

Lemma B2R_neg m e : (B2R (S754_finite true m e) < 0)%R.
Proof.
  simpl. unfold F2R. pose proof (bpow_pos e).
  assert (IZR (- Z.pos m) < 0)%R by (apply IZR_lt; lia). nra.
Qed.

Lemma B2R_opp s m e :
  B2R (S754_finite (negb s) m e) = (- B2R (S754_finite s m e))%R.
Proof. destruct s; simpl; rewrite F2R_opp; done. Qed.

(** The comparison of two positive floats in canonical form. *)
Lemma canonical_compare m1 e1 m2 e2 :
  canonical_mantissa prec emax m1 e1 = true →
  canonical_mantissa prec emax m2 e2 = true →
  match (match e1 ?= e2 with
         | Lt => Lt
         | Gt => Gt
         | Eq => Pos.compare_cont Eq m1 m2
         end) with
  | Lt => (F2R (Z.pos m1) e1 < F2R (Z.pos m2) e2)%R
  | Eq => F2R (Z.pos m1) e1 = F2R (Z.pos m2) e2
  | Gt => (F2R (Z.pos m2) e2 < F2R (Z.pos m1) e1)%R
  end.
Proof.
  intros H1 H2. destruct (Z.compare_spec e1 e2) as [->|Hlt|Hgt].
  - change (Pos.compare_cont Eq m1 m2) with (m1 ?= m2)%positive.
    destruct (Pos.compare_spec m1 m2) as [->|Hm|Hm]; [done|..];
      apply F2R_lt; lia.
  - by apply canonical_lt_exp.
  - by apply canonical_lt_exp.
Qed.

(** The comparison of the code is the order of the real numbers. *)
Lemma SFcompare_B2R x y :
  finite_float x → finite_float y →
  ∃ c, SFcompare x y = Some c
     ∧ match c with
       | Lt => (B2R x < B2R y)%R
       | Eq => B2R x = B2R y
       | Gt => (B2R y < B2R x)%R
       end.
Proof.
  intros [Hvx Hfx] [Hvy Hfy].
  destruct x as [sx|sx| |sx mx ex], y as [sy|sy| |sy my ey]; try done.
  - by exists Eq.
  - destruct sy; eexists; (split; [reflexivity|]); simpl B2R at 1;
      [apply B2R_neg|apply B2R_pos].
  - destruct sx; eexists; (split; [reflexivity|]); simpl B2R at 2;
      [apply B2R_neg|apply B2R_pos].
  - apply valid_finite in Hvx as [Hcx _]. apply valid_finite in Hvy as [Hcy _].
    pose proof (B2R_neg mx ex). pose proof (B2R_pos mx ex).
    pose proof (B2R_neg my ey). pose proof (B2R_pos my ey).
    destruct sx, sy; simpl SFcompare.
    + pose proof (canonical_compare mx ex my ey Hcx Hcy) as Hc.
      destruct (ex ?= ey); [destruct (Pos.compare_cont Eq mx my)|..];
        eexists; (split; [reflexivity|]); simpl in *;
        rewrite <- !F2R_opp; lra.
    + eexists. split; [reflexivity|]. lra.
    + eexists. split; [reflexivity|]. lra.
    + pose proof (canonical_compare mx ex my ey Hcx Hcy) as Hc.
      destruct (ex ?= ey); [destruct (Pos.compare_cont Eq mx my)|..];
        eexists; (split; [reflexivity|]); simpl in *; lra.
Qed.

Lemma SFltb_B2R x y :
  finite_float x → finite_float y → SFltb x y = true ↔ (B2R x < B2R y)%R.
Proof.
  intros Hx Hy. destruct (SFcompare_B2R x y Hx Hy) as (c & Hc & Hord).
  unfold SFltb. rewrite Hc. destruct c; split; intros; try done; lra.
Qed.

Lemma SFleb_B2R x y :
  finite_float x → finite_float y → SFleb x y = true ↔ (B2R x <= B2R y)%R.
Proof.
  intros Hx Hy. destruct (SFcompare_B2R x y Hx Hy) as (c & Hc & Hord).
  unfold SFleb. rewrite Hc. destruct c; split; intros; try done; lra.
Qed.

Lemma rounded_to_class sx m1 E r :
  rounded_to sx m1 E r →
  valid_binary prec emax r = true
  ∧ (r = S754_zero sx ∨ (∃ m e, r = S754_finite sx m e) ∨ r = S754_infinity sx).
Proof.
  intros [->|mf ef Hef Hmf Hcan Hfin|mf ef Hef Hmf Hcan Hov].
  - split; [done|by left].
  - split; [apply valid_finite; by rewrite emax_prec in Hfin|].
    right; left. by eexists _, _.
  - split; [done|by right; right].
Qed.

(** What [binary_round] returns is a float of the format. *)
Lemma binary_round_class sx mx ex :
  let r := binary_round prec emax sx mx ex in
  valid_binary prec emax r = true
  ∧ (r = S754_zero sx ∨ (∃ m e, r = S754_finite sx m e) ∨ r = S754_infinity sx).
Proof.
  destruct (binary_round_spec sx mx ex) as (m & e & Hm & He & Hme & Hk & ->).
  destruct (binary_round_aux_spec sx m e loc_Exact ltac:(lia) Hk)
    as (m1 & _ & _ & _ & _ & Hr).
  by eapply rounded_to_class.
Qed.

(** The value of an aligned mantissa. *)
Lemma shl_align_F2R mx ex ez :
  ez ≤ ex → F2R (Z.pos (shl_align mx ex ez).1) ez = F2R (Z.pos mx) ex.
Proof.
  intros Hez. pose proof (shl_align_spec mx ex ez) as Hal.
  destruct (shl_align mx ex ez) as [mz ez']. destruct Hal as [Hez' Hmz]. simpl.
  rewrite Z.min_r in Hez' by done. subst ez'.
  by rewrite Hmz, <- F2R_shift.
Qed.

(** The sum of two floats that are not negative is their exact sum,
    rounded. *)
Lemma SFadd_rounded a b :
  nonneg_float a → nonneg_float b →
  rounded (B2R a + B2R b) (SFadd prec emax a b).
Proof.
  intros Ha Hb.
  destruct (Ha) as [Hva [->|(ma & ea & ->)]], (Hb) as [Hvb [->|(mb & eb & ->)]].
  - simpl. rewrite Rplus_0_l. by apply (rounded_exact (S754_zero false)).
  - simpl SFadd. rewrite B2R_zero, Rplus_0_l. by apply rounded_exact.
  - simpl SFadd. rewrite B2R_zero, Rplus_0_r. by apply rounded_exact.
  - unfold SFadd. set (ez := Z.min ea eb). simpl cond_Zopp.
    assert (Hsum : (B2R (S754_finite false ma ea) + B2R (S754_finite false mb eb))%R
                   = F2R (Z.pos (shl_align ma ea ez).1 + Z.pos (shl_align mb eb ez).1) ez).
    { rewrite <- F2R_plus, !shl_align_F2R by lia. done. }
    rewrite Hsum. unfold binary_normalize. rewrite <- Pos2Z.inj_add.
    set (S := ((shl_align ma ea ez).1 + (shl_align mb eb ez).1)%positive).
    destruct (binary_round_spec false S ez) as (m & e & Hm & He & Hme & Hk & ->).
    rewrite (F2R_shift _ ez e), <- Hme by done.
    apply binary_round_aux_rounded; [lia|done| |done].
    split; [lra|]. apply F2R_lt. lia.
Qed.

(** [x - x] is [0.0f]. *)
Lemma SFsub_diag x : is_finite x = true → SFsub prec emax x x = S754_zero false.
Proof.
  destruct x as [[]|[]| |[] mk ek]; try done; simpl; intros _;
    unfold cond_Zopp; rewrite Z.min_id;
    unfold shl_align; rewrite Z.sub_diag; simpl;
    by rewrite ?Z.sub_diag, ?Z.pos_sub_diag.
Qed.

(** A difference [x - y] with [x <= y] is a float that is not positive: a
    zero, a negative number or [-inf]. *)
Lemma SFsub_nonpos x y :
  finite_float x → finite_float y → (B2R x <= B2R y)%R →
  valid_binary prec emax (SFsub prec emax x y) = true
  ∧ SFleb (SFsub prec emax x y) (S754_zero false) = true.
Proof.
  intros [Hvx Hfx] [Hvy Hfy] Hle.
  destruct x as [sx|sx| |sx mx ex], y as [sy|sy| |sy my ey]; try done.
  - by destruct sx, sy.
  - destruct sy.
    + pose proof (B2R_neg my ey). rewrite B2R_zero in Hle. lra.
    + done.
  - destruct sx.
    + done.
    + pose proof (B2R_pos mx ex). rewrite B2R_zero in Hle. lra.
  - unfold SFsub. set (ez := Z.min ex ey).
    set (D := cond_Zopp sx (Z.pos (shl_align mx ex ez).1)
              - cond_Zopp sy (Z.pos (shl_align my ey ez).1)).
    assert (HD : D ≤ 0).
    { apply (F2R_nonpos D ez). unfold D.
      replace (F2R _ ez) with (B2R (S754_finite sx mx ex) - B2R (S754_finite sy my ey))%R;
        [lra|].
      unfold Z.sub. rewrite <- F2R_plus, <- F2R_opp. simpl B2R.
      assert (Hs : ∀ s m e, ez ≤ e →
                F2R (cond_Zopp s (Z.pos (shl_align m e ez).1)) ez
                = F2R (cond_Zopp s (Z.pos m)) e).
      { intros s m e He. destruct s; unfold cond_Zopp.
        - rewrite <- !F2R_opp. f_equal. by apply shl_align_F2R.
        - by apply shl_align_F2R. }
      rewrite !Hs by lia. lra. }
    unfold binary_normalize. destruct D as [|p|p]; [done|lia|].
    destruct (binary_round_class true p ez) as [Hv [Hr|[(m & e & Hr)|Hr]]];
      cbv zeta in Hv; rewrite Hr in *; by split.
Qed.

Lemma new_location_exact nb k : new_location nb k = loc_Exact ↔ k = 0.
Proof.
  unfold new_location, new_location_even, new_location_odd.
  destruct (Z.even nb); destruct (Z.eqb_spec k 0); split; intros; done.
Qed.

(** The quotient of a float that is not negative by a positive float is
    their exact quotient, rounded. *)
Lemma SFdiv_rounded a mb eb :
  nonneg_float a →
  rounded (B2R a / B2R (S754_finite false mb eb))
    (SFdiv prec emax a (S754_finite false mb eb)).
Proof.
  intros Ha. pose proof (B2R_pos mb eb) as Hbpos.
  destruct (Ha) as [Hva [->|(ma & ea & ->)]].
  { simpl SFdiv. rewrite B2R_zero. unfold Rdiv. rewrite Rmult_0_l.
    by apply (rounded_exact (S754_zero false)). }
  unfold SFdiv, SFdiv_core_binary. simpl xorb.
  set (d1 := Zdigits2 (Z.pos ma)). set (d2 := Zdigits2 (Z.pos mb)).
  set (e' := Z.min (fexp prec emax (d1 + ea - (d2 + eb))) (ea - eb)).
  set (s := ea - eb - e').
  assert (Hs : 0 ≤ s) by (unfold s, e'; lia).
  set (m' := match s with
             | 0 => Z.pos ma
             | Z.pos _ => Z.shiftl (Z.pos ma) s
             | Z.neg _ => 0
             end).
  assert (Hm' : m' = Z.pos ma * 2 ^ s).
  { unfold m'. destruct s as [|ps|ps] eqn:Hs'; [simpl; lia| |lia].
    by rewrite Z.shiftl_mul_pow2. }
  clearbody m'.
  pose proof (Z_div_mod m' (Z.pos mb) ltac:(lia)) as Hdm.
  destruct (Z.div_eucl m' (Z.pos mb)) as [q r]. destruct Hdm as [Hdm Hr].
  pose proof (pow2_pos s Hs) as H2s.
  assert (Hq : 0 ≤ q) by nia.
  destruct (Zdigits2_bounds (Z.pos ma)) as (Hd1 & Hlo1 & Hhi1); [lia|].
  destruct (Zdigits2_bounds (Z.pos mb)) as (Hd2 & Hlo2 & Hhi2); [lia|].
  fold d1 in Hd1, Hlo1, Hhi1. fold d2 in Hd2, Hlo2, Hhi2.
  assert (He' : e' ≤ Z.max (d1 + ea - (d2 + eb) - 24) (-149)).
  { unfold e'. rewrite fexp_eq. lia. }
  apply binary_round_aux_rounded.
  - done.
  - rewrite fexp_eq.
    assert (Hg : d1 + s - d2 ≤ Zdigits2 q ∨ (q = 0 ∧ d1 + s ≤ d2)).
    { destruct (Z.eq_dec q 0) as [->|Hq0].
      - right. split; [done|].
        assert (Z.pos ma * 2 ^ s < Z.pos mb) by lia.
        assert (Hdig : Zdigits2 (Z.pos ma * 2 ^ s) ≤ Zdigits2 (Z.pos mb))
          by (apply Zdigits2_mono; lia).
        rewrite Zdigits2_shl in Hdig by lia. fold d1 d2 in Hdig. lia.
      - left. destruct (Zdigits2_bounds q) as (Hdq & _ & _); [lia|].
        destruct (Z.le_gt_cases (d1 + s - d2) 1) as [?|Hbig]; [lia|].
        assert (H2g : 2 ^ (d1 + s - d2 - 1) ≤ q).
        { assert (Z.pos mb * 2 ^ (d1 + s - d2 - 1) ≤ m').
          { assert (2 ^ (d1 + s - 1) = 2 ^ d2 * 2 ^ (d1 + s - d2 - 1)).
            { rewrite <- pow2_add by lia. f_equal. lia. }
            assert (2 ^ (d1 + s - 1) = 2 ^ (d1 - 1) * 2 ^ s).
            { rewrite <- pow2_add by lia. f_equal. lia. }
            pose proof (pow2_pos (d1 + s - d2 - 1) ltac:(lia)). nia. }
          pose proof (pow2_pos (d1 + s - d2 - 1) ltac:(lia)). nia. }
        assert (Zdigits2 (2 ^ (d1 + s - d2 - 1)) = d1 + s - d2) as Hdg.
        { apply Zdigits2_unique; [apply pow2_pos; lia|].
          replace (d1 + s - d2 - 1) with (d1 + s - d2 - 1) by lia.
          split; [lia|]. apply pow2_lt; lia. }
        rewrite <- Hdg. apply Zdigits2_mono; [apply pow2_pos; lia|done]. }
    destruct Hg as [Hg|[-> Hg]]; [unfold s in Hg; lia|].
    simpl Zdigits2. unfold s in Hg. lia.
  - (* the exact quotient lies between q and q + 1 *)
    assert (Hx : (B2R (S754_finite false ma ea) / B2R (S754_finite false mb eb))%R
                 = ((IZR q + IZR r / IZR (Z.pos mb)) * bpow e')%R).
    { simpl B2R. unfold F2R.
      replace ea with (s + e' + eb) at 1 by (unfold s; lia).
      rewrite !bpow_add, (bpow_IZR s) by done.
      assert (IZR (Z.pos ma) * IZR (2 ^ s) = IZR (Z.pos mb) * IZR q + IZR r)%R as Hdm'.
      { rewrite <- !mult_IZR, <- plus_IZR. f_equal. lia. }
      pose proof (bpow_pos eb). pose proof (bpow_pos e').
      assert (0 < IZR (Z.pos mb))%R by (apply IZR_lt; lia).
      field_simplify_eq; [|lra]. nra. }
    rewrite Hx. unfold F2R. rewrite plus_IZR.
    pose proof (bpow_pos e').
    assert (0 < IZR (Z.pos mb))%R by (apply IZR_lt; lia).
    assert (0 <= IZR r / IZR (Z.pos mb) < 1)%R as [? ?].
    { assert (0 <= IZR r)%R by (apply IZR_le; lia).
      assert (IZR r < IZR (Z.pos mb))%R by (apply IZR_lt; lia).
      split.
      - apply Rmult_le_pos; [done|]. left. by apply Rinv_0_lt_compat.
      - apply (Rmult_lt_reg_r (IZR (Z.pos mb))); [done|].
        unfold Rdiv. rewrite Rmult_assoc, Rinv_l by lra. lra. }
    split; nra.
  - rewrite new_location_exact.
    assert (Hx : (B2R (S754_finite false ma ea) / B2R (S754_finite false mb eb))%R
                 = ((IZR q + IZR r / IZR (Z.pos mb)) * bpow e')%R).
    { simpl B2R. unfold F2R.
      replace ea with (s + e' + eb) at 1 by (unfold s; lia).
      rewrite !bpow_add, (bpow_IZR s) by done.
      assert (IZR (Z.pos ma) * IZR (2 ^ s) = IZR (Z.pos mb) * IZR q + IZR r)%R as Hdm'.
      { rewrite <- !mult_IZR, <- plus_IZR. f_equal. lia. }
      pose proof (bpow_pos eb). pose proof (bpow_pos e').
      assert (0 < IZR (Z.pos mb))%R by (apply IZR_lt; lia).
      field_simplify_eq; [|lra]. nra. }
    rewrite Hx. unfold F2R.
    pose proof (bpow_pos e').
    assert (0 < IZR (Z.pos mb))%R by (apply IZR_lt; lia).
    split.
    + intros ->. unfold Rdiv. rewrite Rmult_0_l. lra.
    + intros Heq.
      assert (IZR r / IZR (Z.pos mb) = 0)%R as Hr0 by nra.
      apply eq_IZR.
      apply (Rmult_eq_reg_r (/ IZR (Z.pos mb))); [|apply Rinv_neq_0_compat; lra].
      unfold Rdiv in Hr0. rewrite Hr0. lra.
Qed.

Lemma B2R_one : B2R b32_one = 1%R.
Proof.
  change b32_one with (S754_finite false 8388608 (-23)). simpl. unfold F2R.
  change 8388608 with (2 ^ 23). rewrite <- (bpow_IZR 23), <- bpow_add by lia.
  done.
Qed.

Lemma nonneg_one : nonneg_float b32_one.
Proof. split; [done|]. right. by eexists _, _. Qed.

(** The integers below [2^24] are floats. *)
Lemma int_float k : 0 < k < 2 ^ 24 → ∃ a, nonneg_float a ∧ B2R a = IZR k.
Proof.
  intros [Hk Hk24].
  destruct (Zdigits2_bounds k Hk) as (Hd & Hlo & Hhi).
  set (d := Zdigits2 k) in *.
  assert (Hd24 : d ≤ 24).
  { destruct (Z.le_gt_cases d 24); [done|]. pose proof (pow2_le 24 (d - 1)). lia. }
  pose proof (pow2_pos (24 - d) ltac:(lia)) as Hp.
  assert (HM : 0 < k * 2 ^ (24 - d)) by nia.
  exists (S754_finite false (Z.to_pos (k * 2 ^ (24 - d))) (d - 24)).
  split; [split|].
  - apply valid_finite. split; [|lia].
    apply canonical_mantissa_eq. rewrite Z2Pos.id by done.
    rewrite Zdigits2_shl by lia. fold d. lia.
  - right. by eexists _, _.
  - simpl. rewrite Z2Pos.id by done.
    replace (24 - d) with (0 - (d - 24)) by lia.
    rewrite <- F2R_shift by lia. unfold F2R. change (bpow 0) with 1%R. lra.
Qed.

End Operations.

Section SoftmaxBinary32.
Import Binary32.
Open Scope Z_scope.
Context (LM : Libm float32) (Hexp : expf_spec LM).

Lemma Rabs_le_inv a b : (Rabs a <= b)%R → (- b <= a <= b)%R.
Proof. unfold Rabs. destruct (Rcase_abs a); lra. Qed.

Lemma nonneg_not_inf s : ¬ nonneg_float (S754_infinity s).
Proof. by intros [_ [?|(? & ? & ?)]]. Qed.

Lemma bpow_m23 : bpow (-23) = (/ 2 ^ 23)%R.
Proof. done. Qed.

Lemma bpow_m149_le : (bpow (-149) <= bpow (-23))%R.
Proof. apply bpow_le. lia. Qed.

Lemma running_max_step (mx x : float32) l :
  running_max mx (x :: l) = running_max (if SFltb mx x then x else mx) l.
Proof. done. Qed.

Lemma running_max_spec mx l :
  finite_float mx → Forall finite_float l →
  running_max mx l ∈ mx :: l
  ∧ (B2R mx <= B2R (running_max mx l))%R
  ∧ ∀ x, x ∈ l → (B2R x <= B2R (running_max mx l))%R.
Proof.
  intros Hmx Hl. revert mx Hmx.
  induction Hl as [|x l Hx Hl IH]; intros mx Hmx.
  - split; [by left|]. split; [simpl; lra|]. by intros x ?%elem_of_nil.
  - rewrite running_max_step.
    pose proof (SFltb_B2R mx x Hmx Hx) as Hlt.
    destruct (SFltb mx x) eqn:Hgt.
    + destruct (IH x Hx) as (Hin & Hge & Hall).
      assert (B2R mx < B2R x)%R by (by apply Hlt).
      split; [by right|]. split; [lra|].
      intros y [->|Hy]%elem_of_cons; [done|by apply Hall].
    + destruct (IH mx Hmx) as (Hin & Hge & Hall).
      assert (¬ (B2R mx < B2R x)%R) by (intros ?%Hlt; done).
      split.
      { apply elem_of_cons in Hin as [->|Hin]; [by left|by right; right]. }
      split; [done|].
      intros y [->|Hy]%elem_of_cons; [lra|by apply Hall].
Qed.

(** The maximum the first loop finds: an element, and no element is
    greater. *)
Lemma max_of_spec l :
  l ≠ [] → Forall finite_float l →
  max_of l ∈ l ∧ ∀ x, x ∈ l → (B2R x <= B2R (max_of l))%R.
Proof.
  destruct l as [|x0 l]; [done|]. intros _ Hall0.
  inversion Hall0 as [|? ? Hx0 Hl]; subst. simpl.
  destruct (running_max_spec x0 l Hx0 Hl) as (Hin & Hge & Hall).
  split; [done|]. intros y [->|Hy]%elem_of_cons; [done|by apply Hall].
Qed.

(** Every exponential is a float of [[0, 1]], and that of the maximum is
    [1]. *)
Lemma exp_shifted_unit l :
  l ≠ [] → Forall finite_float l →
  Forall unit_float (exp_shifted l) ∧ b32_one ∈ exp_shifted l.
Proof.
  intros Hne Hl. destruct (max_of_spec l Hne Hl) as [Hin Hmax].
  assert (Hmx : finite_float (max_of l)).
  { by apply (proj1 (list.Forall_forall _ _) Hl). }
  unfold exp_shifted. split.
  - apply Forall_fmap, list.Forall_forall. intros x Hx. simpl.
    assert (Hfx : finite_float x) by (by apply (proj1 (list.Forall_forall _ _) Hl)).
    destruct (SFsub_nonpos x (max_of l) Hfx Hmx (Hmax x Hx)) as [Hv Hle].
    by apply (expf_unit LM Hexp).
  - apply list_elem_of_fmap. exists (max_of l). split; [|done].
    simpl. rewrite SFsub_diag by apply Hmx. symmetry. apply (expf_zero LM Hexp).
Qed.

Lemma Rsum_cons x l : Rsum (x :: l) = (x + Rsum l)%R.
Proof. done. Qed.

(** The accumulation of floats of [[0, 1]] onto [s0 <= k0]: the result is at
    most [k0 + n], at least every term, and within [n * (k0 + n)] units of
    the exact sum. *)
Lemma foldl_add_bounds es s0 k0 :
  nonneg_float s0 → (B2R s0 <= IZR k0)%R → 0 ≤ k0 →
  k0 + Z.of_nat (length es) < 2 ^ 24 →
  Forall unit_float es →
  let s := foldl (SFadd prec emax) s0 es in
  let n := Z.of_nat (length es) in
  nonneg_float s ∧ (B2R s <= IZR (k0 + n))%R ∧ (B2R s0 <= B2R s)%R
  ∧ (∀ e, e ∈ es → (B2R e <= B2R s)%R)
  ∧ (Rabs (B2R s - (B2R s0 + Rsum (B2R <$> es))) <= IZR (n * (k0 + n)) * bpow (-23))%R.
Proof.
  intros Hs0 Hk0 Hk0' Hlen Hes. revert s0 k0 Hs0 Hk0 Hk0' Hlen.
  induction Hes as [|e es [He He1] Hes IH]; intros s0 k0 Hs0 Hk0 Hk0' Hlen; cbv zeta.
  - simpl. rewrite Z.add_0_r. split; [done|]. split; [done|]. split; [lra|].
    split; [by intros ? ?%elem_of_nil|].
    rewrite Rplus_0_r, Rminus_diag, Rabs_R0.
    change (Z.of_nat 0) with 0. rewrite Z.mul_0_l. lra.
  - simpl foldl. rewrite length_cons, Nat2Z.inj_succ in *.
    set (n := Z.of_nat (length es)) in *.
    pose proof (SFadd_rounded s0 e Hs0 He) as Hr.
    set (s1 := SFadd prec emax s0 e) in *.
    pose proof (nonneg_float_B2R s0 Hs0). pose proof (nonneg_float_B2R e He).
    destruct (int_float (k0 + 1) ltac:(lia)) as (a & Ha & HaR).
    destruct (rounded_upper _ _ Hr a Ha) as [Hs1 Hs1k].
    { rewrite HaR, plus_IZR. lra. }
    rewrite HaR in Hs1k.
    assert (Hs01 : (B2R s0 <= B2R s1)%R).
    { destruct (rounded_lower _ _ Hr s0 Hs0 ltac:(lra)) as [Hinf|?]; [|done].
      rewrite Hinf in Hs1. by apply nonneg_not_inf in Hs1. }
    assert (He1' : (B2R e <= B2R s1)%R).
    { destruct (rounded_lower _ _ Hr e He ltac:(lra)) as [Hinf|?]; [|done].
      rewrite Hinf in Hs1. by apply nonneg_not_inf in Hs1. }
    pose proof (rounded_error _ _ Hr Hs1) as Herr.
    assert (Herr1 : (Rabs (B2R s1 - (B2R s0 + B2R e)) <= IZR (k0 + 1) * bpow (-23))%R).
    { apply Rle_trans with (1 := Herr). pose proof (bpow_pos (-23)).
      pose proof bpow_m149_le. rewrite plus_IZR in *.
      assert (0 <= IZR k0)%R by (apply IZR_le; lia).
      apply Rmax_lub; nra. }
    destruct (IH s1 (k0 + 1) Hs1 Hs1k ltac:(lia) ltac:(lia))
      as (Hs & Hsk & Hs1s & Hall & Herrs).
    fold n in Hsk, Herrs.
    split; [done|]. split; [by replace (k0 + Z.succ n) with (k0 + 1 + n) by lia|].
    split; [lra|]. split.
    { intros y [->|Hy]%elem_of_cons; [lra|by apply Hall]. }
    rewrite fmap_cons, Rsum_cons.
    apply Rabs_le_inv in Herr1, Herrs. apply Rabs_le.
    assert (Hm : (IZR (Z.succ n * (k0 + Z.succ n))
                  = IZR (n * (k0 + 1 + n)) + IZR (k0 + 1) + IZR n)%R).
    { rewrite <- !plus_IZR. f_equal. lia. }
    rewrite Hm. pose proof (bpow_pos (-23)).
    assert (0 <= IZR n)%R by (apply IZR_le; lia).
    split; nra.
Qed.

(** The divisions by a sum [s >= 1] that every term is at most. *)
Lemma div_all_bounds es ms es' :
  let s := S754_finite false ms es' in
  valid_binary prec emax s = true → (1 <= B2R s)%R →
  Forall (λ e, nonneg_float e ∧ (B2R e <= B2R s)%R) es →
  Forall unit_float ((λ y, SFdiv prec emax y s) <$> es)
  ∧ (Rabs (Rsum (B2R <$> ((λ y, SFdiv prec emax y s) <$> es))
           - Rsum (B2R <$> es) / B2R s) <= INR (length es) * bpow (-23))%R.
Proof.
  intros s Hvs Hs1 Hes.
  induction Hes as [|e es [He Hes'] Hes IH].
  - simpl. split; [constructor|]. unfold Rdiv. rewrite Rmult_0_l, Rminus_diag, Rabs_R0. lra.
  - destruct IH as [IHu IHe].
    pose proof (SFdiv_rounded e ms es' He) as Hr. fold s in Hr.
    pose proof (nonneg_float_B2R e He).
    assert (Hq1 : (B2R e / B2R s <= 1)%R).
    { apply (Rmult_le_reg_r (B2R s)); [lra|].
      unfold Rdiv. rewrite Rmult_assoc, Rinv_l by lra. lra. }
    assert (Hq0 : (0 <= B2R e / B2R s)%R).
    { apply Rmult_le_pos; [done|]. left. apply Rinv_0_lt_compat. lra. }
    destruct (rounded_upper _ _ Hr b32_one nonneg_one) as [Hp Hp1].
    { by rewrite B2R_one. }
    rewrite B2R_one in Hp1.
    pose proof (rounded_error _ _ Hr Hp) as Herr.
    assert (Herr1 : (Rabs (B2R (SFdiv prec emax e s) - B2R e / B2R s) <= bpow (-23))%R).
    { apply Rle_trans with (1 := Herr). pose proof (bpow_pos (-23)).
      pose proof bpow_m149_le. apply Rmax_lub; nra. }
    rewrite !fmap_cons. split; [constructor; [by split|done]|].
    rewrite !Rsum_cons, length_cons, S_INR.
    apply Rabs_le_inv in Herr1, IHe. apply Rabs_le.
    unfold Rdiv in *. rewrite Rmult_plus_distr_r. split; lra.
Qed.

(** [softmax] of a non-empty list of finite floats in binary32: every
    result is a float of [[0, 1]], and their sum is [1] up to
    [rounding_tolerance]. *)
Lemma softmax_list_distribution l :
  l ≠ [] → Forall finite_float l → Z.of_nat (length l) < 2 ^ 24 →
  Forall unit_float (softmax_list l)
  ∧ (Rabs (Rsum (B2R <$> softmax_list l) - 1) <= rounding_tolerance (length l))%R.
Proof.
  intros Hne Hl Hlen.
  destruct (exp_shifted_unit l Hne Hl) as [Hunit Hone].
  unfold softmax_list. set (es := exp_shifted l) in *.
  assert (Hles : length es = length l) by (unfold es, exp_shifted; by rewrite length_fmap).
  destruct (foldl_add_bounds es (S754_zero false) 0) as (Hs & Hsn & _ & Hall & Herr);
    try done; try lia.
  { split; [done|by left]. }
  change (foldl (SFadd prec emax) (S754_zero false) es) with (float_sum es) in *.
  set (s := float_sum es) in *.
  assert (Hs1 : (1 <= B2R s)%R).
  { rewrite <- B2R_one. by apply Hall. }
  destruct Hs as [Hvs [Hz|(ms & es' & Hfin)]].
  { rewrite Hz in Hs1. simpl in Hs1. lra. }
  rewrite Hfin in *.
  destruct (div_all_bounds es ms es' Hvs Hs1) as [Hp Hperr].
  { apply list.Forall_forall. intros e He. split; [|by apply Hall].
    by apply (proj1 (list.Forall_forall _ _) Hunit). }
  split; [done|].
  rewrite B2R_zero, Rplus_0_l, Z.add_0_l in Herr.
  apply Rabs_le_inv in Herr, Hperr. apply Rabs_le.
  unfold rounding_tolerance. rewrite <- Hles.
  set (n := length es) in *.
  rewrite mult_IZR, <- INR_IZR_INZ in Herr.
  set (T := Rsum (B2R <$> es)) in *.
  set (S := B2R (S754_finite false ms es')) in *.
  set (P := Rsum (B2R <$> ((λ y, SFdiv prec emax y (S754_finite false ms es')) <$> es)))
    in *.
  change (Rsum (B2R <$> ((λ y, f_div y (S754_finite false ms es')) <$> es))) with P.
  assert (Hu : bpow (-23) = (/ 2 ^ 23)%R) by done.
  rewrite Hu in *. set (u := (/ 2 ^ 23)%R) in *.
  change (INR n * (INR n + 1) / 2 ^ 23)%R with (INR n * (INR n + 1) * u)%R.
  assert (0 < u)%R by (unfold u; lra).
  assert (0 <= INR n)%R by apply pos_INR.
  assert (HTS : (- (INR n * INR n * u) <= T / S - 1 <= INR n * INR n * u)%R).
  { assert (T / S - 1 = (T - S) / S)%R as -> by (field; lra).
    assert (0 <= INR n * INR n * u)%R by (apply Rmult_le_pos; [nra|lra]).
    assert (0 < / S <= 1)%R as [? ?].
    { split; [apply Rinv_0_lt_compat; lra|].
      rewrite <- Rinv_1. apply Rinv_le_contravar; lra. }
    unfold Rdiv. split; nra. }
  split; nra.
Qed.

End SoftmaxBinary32.

Section Validity.
Import Binary32.
Open Scope Z_scope.

Lemma Zdigits2_pow2 k : 0 ≤ k → Zdigits2 (2 ^ k) = k + 1.
Proof.
  intros Hk. apply Zdigits2_unique; [by apply pow2_pos|].
  replace (k + 1 - 1) with k by lia. split; [lia|]. apply pow2_lt; lia.
Qed.

Lemma valid_SFadd x y :
  valid_binary prec emax x = true → valid_binary prec emax y = true →
  valid_binary prec emax (SFadd prec emax x y) = true.
Proof.
  intros Hx Hy.
  destruct x as [sx|sx| |sx mx ex], y as [sy|sy| |sy my ey]; try done;
    try (by destruct sx, sy).
  unfold SFadd, binary_normalize.
  destruct (_ + _) as [|p|p]; [done|apply binary_round_class..].
Qed.

Lemma valid_SFmul x y :
  valid_binary prec emax x = true → valid_binary prec emax y = true →
  valid_binary prec emax (SFmul prec emax x y) = true.
Proof.
  intros Hx Hy.
  destruct x as [sx|sx| |sx mx ex], y as [sy|sy| |sy my ey]; try done.
  apply valid_finite in Hx as [Hcx _]. apply valid_finite in Hy as [Hcy _].
  apply canonical_mantissa_eq in Hcx, Hcy.
  destruct (Zdigits2_bounds (Z.pos mx)) as (Hdx & Hlox & _); [lia|].
  destruct (Zdigits2_bounds (Z.pos my)) as (Hdy & Hloy & _); [lia|].
  set (dx := Zdigits2 (Z.pos mx)) in *. set (dy := Zdigits2 (Z.pos my)) in *.
  unfold SFmul.
  assert (Hd : dx + dy - 1 ≤ Zdigits2 (Z.pos (mx * my))).
  { replace (dx + dy - 1) with (dx + dy - 2 + 1) by lia.
    rewrite <- (Zdigits2_pow2 (dx + dy - 2)) by lia.
    apply Zdigits2_mono; [apply pow2_pos; lia|].
    replace (dx + dy - 2) with ((dx - 1) + (dy - 1)) by lia.
    rewrite pow2_add, Pos2Z.inj_mul by lia.
    pose proof (pow2_pos (dx - 1)). pose proof (pow2_pos (dy - 1)). nia. }
  destruct (binary_round_aux_spec (xorb sx sy) (Z.pos (mx * my)) (ex + ey) loc_Exact)
    as (m1 & _ & _ & _ & _ & Hr); [lia|rewrite fexp_eq; lia|].
  by eapply rounded_to_class.
Qed.

Lemma all_valid_nth W i : all_valid W → valid_binary prec emax (nth i W b32_zero) = true.
Proof.
  intros HW. destruct (nth_lookup_or_length W i b32_zero) as [Hi|Hi].
  - by apply (Forall_lookup_1 _ _ _ _ HW Hi).
  - by rewrite nth_overflow by lia.
Qed.

Lemma col_sum_valid W X cols j n :
  all_valid W → all_valid X → valid_binary prec emax (col_sum W X cols j n) = true.
Proof.
  intros HW HX. induction n as [|n IH]; [done|]. simpl.
  apply valid_SFadd; [done|]. apply valid_SFmul; by apply all_valid_nth.
Qed.

Lemma dense_valid W B X n k :
  all_valid W → all_valid B → all_valid X → all_valid (dense W B X n k).
Proof.
  intros HW HB HX. unfold dense. apply Forall_fmap, list.Forall_forall.
  intros j _. simpl. apply valid_SFadd; [by apply col_sum_valid|by apply all_valid_nth].
Qed.

Lemma relu_valid l :
  all_valid l → all_valid ((λ v, if SFltb b32_zero v then v else b32_zero) <$> l).
Proof.
  intros Hl. apply Forall_fmap, list.Forall_forall. intros v Hv. simpl.
  pose proof (proj1 (list.Forall_forall _ _) Hl v Hv).
  by destruct (SFltb b32_zero v).
Qed.

Lemma narrow_valid z : valid_binary prec emax (narrow z) = true.
Proof. destruct z as [| | |s m e]; try done. apply binary_round_class. Qed.

Lemma expf_ref_valid x : valid_binary prec emax (expf_ref x) = true.
Proof.
  destruct x as [|[]| |s m e]; try done. unfold expf_ref.
  destruct (SFltb _ _); [done|]. destruct (SFltb _ _); [done|].
  apply narrow_valid.
Qed.

(** The clamped reference is an [expf] the theorems apply to. *)
Lemma expf_clamped_spec : expf_spec libm_clamped.
Proof.
  split.
  - by intros [].
  - intros d Hv Hle. simpl. unfold expf_clamped. rewrite Hle.
    pose proof (expf_ref_valid d) as Hvy. set (y := expf_ref d) in *. clearbody y.
    destruct (SFltb b32_one y) eqn:H1.
    { split; [apply nonneg_one|]. rewrite B2R_one. lra. }
    destruct (SFltb b32_zero y) eqn:H0.
    + destruct y as [sy|sy| |sy my ey]; try done.
      * by destruct sy.
      * destruct sy; [done|].
        assert (Hy : nonneg_float (S754_finite false my ey)).
        { split; [done|]. right. by eexists _, _. }
        split; [done|].
        pose proof (SFltb_B2R b32_one _ (nonneg_finite _ nonneg_one) (nonneg_finite _ Hy))
          as Hlt.
        rewrite B2R_one in Hlt.
        destruct (Rle_or_lt (B2R (S754_finite false my ey)) 1) as [?|Hgt]; [done|].
        apply Hlt in Hgt. congruence.
    + split; [split; [done|by left]|]. simpl. lra.
Qed.

End Validity.

Section Probability.
Import Binary32.

Lemma unit_float_probability q : unit_float q → probability q.
Proof.
  intros [Hq H1]. pose proof (nonneg_float_B2R q Hq) as H0.
  pose proof (nonneg_finite q Hq) as Hfq.
  split; [apply Hfq|]. split.
  - apply SFleb_B2R; [by split|done|]. exact H0.
  - apply SFleb_B2R; [done|apply nonneg_finite, nonneg_one|]. by rewrite B2R_one.
Qed.

Lemma softmax_list_probabilities (LM : Libm float32) l :
  expf_spec LM → l ≠ [] → Forall finite_float l →
  (Z.of_nat (length l) < 2 ^ 24)%Z →
  Forall probability (softmax_list l)
  ∧ (Rabs (Rsum (B2R <$> softmax_list l) - 1) <= rounding_tolerance (length l))%R.
Proof.
  intros Hexp Hne Hl Hlen.
  destruct (softmax_list_distribution LM Hexp l Hne Hl Hlen) as [Hu Hs].
  split; [|done]. eapply list.Forall_forall. intros q Hq.
  apply unit_float_probability. by apply (proj1 (list.Forall_forall _ _) Hu).
Qed.

(** The probabilities added up as floats, from [0.0f]. *)
Lemma softmax_list_float_sum (LM : Libm float32) l :
  expf_spec LM → l ≠ [] → Forall finite_float l →
  (Z.of_nat (length l) < 2 ^ 24)%Z →
  is_finite (float_sum (softmax_list l)) = true
  ∧ (Rabs (B2R (float_sum (softmax_list l)) - 1)
     <= 2 * rounding_tolerance (length l))%R.
Proof.
  intros Hexp Hne Hl Hlen.
  destruct (softmax_list_distribution LM Hexp l Hne Hl Hlen) as [Hu Hs].
  assert (Hlp : length (softmax_list l) = length l) by apply length_softmax_list.
  destruct (foldl_add_bounds (softmax_list l) (S754_zero false) 0)
    as (Hsn & _ & _ & _ & Herr); try done; try lia.
  { split; [done|by left]. }
  cbv zeta in *.
  change (foldl (SFadd prec emax) (S754_zero false) (softmax_list l))
    with (float_sum (softmax_list l)) in *.
  split; [apply (nonneg_finite _ Hsn)|].
  rewrite B2R_zero, Rplus_0_l, Z.add_0_l, Hlp in Herr.
  rewrite mult_IZR, <- INR_IZR_INZ, bpow_m23 in Herr.
  apply Rabs_le_inv in Herr, Hs. apply Rabs_le.
  unfold rounding_tolerance in *.
  set (n := INR (length l)) in *.
  assert (0 <= n)%R by apply pos_INR.
  set (u := (/ 2 ^ 23)%R) in *.
  change (n * (n + 1) / 2 ^ 23)%R with (n * (n + 1) * u)%R in *.
  assert (0 < u)%R by (unfold u; lra).
  assert (0 <= n * u)%R by nra.
  split; nra.
Qed.

End Probability.

Section ExampleTables.
Import Binary32 Examples.

Lemma id_tables_valid : all_valid id_W ∧ all_valid id_B ∧ all_valid id_X.
Proof. repeat split; by repeat constructor. Qed.

End ExampleTables.

(** ** Writes past the end of a buffer, the window, NaN and infinities *)

Section Overflow.
Context {F : Type}.
Implicit Types (m : memory F) (L : list F) (p : ptr).

(** A loop that writes [p[0]], [p[1]], ... beyond the end of the block stops
    at the first index the block does not have. *)
Lemma for_store_overflow p (v : F) n m L :
  m !! p = Some L → length L < n →
  for_range 0 n (λ j _, store p j v) tt m = Fault (OobWrite p (length L)).
Proof.
  intros Hp Hn. unfold for_range. rewrite Nat.sub_0_r.
  assert (Hgen : ∀ k i m' L', m' !! p = Some L' → i ≤ length L' →
            length L' < i + k →
            for_loop k i (λ j _, store p j v) tt m'
            = Fault (OobWrite p (length L'))).
  { induction k as [|k IH]; intros i m' L' Hp' Hi Hk; [lia|].
    cbn [for_loop]. destruct (decide (i < length L')) as [Hlt|Hge].
    - erewrite bind_ok by (by eapply store_block).
      erewrite (IH (S i) _ (<[i := v]> L'));
        [by rewrite length_insert|by eapply block_insert_eq
        |rewrite length_insert; lia..].
    - assert (i = length L') as -> by lia.
      unfold bind, store. rewrite Hp'. by rewrite decide_False by lia. }
  by apply (Hgen n 0 m L); [|lia..].
Qed.

End Overflow.

Section WindowLemmas.
Context {F : Type}.
Implicit Types (m : memory F) (W : list F).

Lemma shift_step p i x m W W' :
  m !! p = Some W → W' !! (i + 1) = Some x → i < length W' →
  (do x <- load p (i + 1) ; store p i x) (<[p := W']> m)
  = Ok tt (<[p := <[i := x]> W']> m).
Proof.
  intros Hp Hx Hi. erewrite bind_ok by (by eapply load_insert_eq).
  by eapply store_insert_eq.
Qed.

Lemma add_temperature_ok temp_window (t : F) m W :
  m !! temp_window = Some W → length W = Thermal.WINDOW_SIZE →
  Thermal.add_temperature_to_window temp_window t m
  = Ok tt (<[temp_window := drop 1 W ++ [t]]> m).
Proof.
  intros Hp Hlen.
  destruct W as [|w0 [|w1 [|w2 [|w3 [|w4 [|w5 [|w6 [|w7 [|w8 [|w9 [|??]]]]]]]]]]];
    try done.
  unfold Thermal.add_temperature_to_window.
  rewrite <- (list_insert_id m temp_window _ Hp) at 1.
  erewrite bind_ok; last first.
  { unfold for_range. cbn [for_loop Nat.sub Thermal.WINDOW_SIZE].
    do 9 (erewrite bind_ok by (eapply shift_step; [done|reflexivity|simpl; lia]);
          cbn [list_insert insert]).
    reflexivity. }
  erewrite store_insert_eq; [done|done|unfold Thermal.WINDOW_SIZE; simpl; lia].
Qed.


End WindowLemmas.

Section OutputOverflow.
Context {F : Type} {FA : FloatArith F} {LM : Libm F}.
Implicit Types (m : memory F) (nn : NeuralNetwork).


End OutputOverflow.

Section Binary32Nan.
Import Binary32.
Implicit Types (x y w : float32) (l : list float32).

Lemma relu1_idempotent x : Activation.relu1 (Activation.relu1 x) = Activation.relu1 x.
Proof. by destruct x as [[]|[]| |[] mx ex]. Qed.


Lemma add_nan_l y : f_add S754_nan y = S754_nan.
Proof. done. Qed.

Lemma add_nan_r x : f_add x S754_nan = S754_nan.
Proof. by destruct x. Qed.

Lemma mul_nan_r w : f_mul w S754_nan = S754_nan.
Proof. by destruct w. Qed.

Lemma sub_nan_l y : f_sub S754_nan y = S754_nan.
Proof. done. Qed.

Lemma div_nan_r x : f_div x S754_nan = S754_nan.
Proof. by destruct x. Qed.

(** A sum that meets a NaN is a NaN. *)
Lemma foldl_add_nan l : foldl f_add S754_nan l = S754_nan.
Proof. induction l as [|x l IH]; [done|]. cbn [foldl]. by rewrite add_nan_l. Qed.

Lemma float_sum_nan l s0 : S754_nan ∈ l → foldl f_add s0 l = S754_nan.
Proof.
  revert s0. induction l as [|x l IH]; intros s0 Hin; [by apply elem_of_nil in Hin|].
  apply elem_of_cons in Hin as [<-|Hin]; cbn [foldl].
  - rewrite add_nan_r. apply foldl_add_nan.
  - by apply IH.
Qed.

(** A list that holds a NaN exponential is normalised to NaNs. *)
Lemma softmax_list_nan (LM : Libm float32) l :
  S754_nan ∈ exp_shifted l → softmax_list l = replicate (length l) S754_nan.
Proof.
  intros Hin. unfold softmax_list, float_sum. rewrite (float_sum_nan _ _ Hin).
  assert (Hlen : length (exp_shifted l) = length l)
    by (unfold exp_shifted; by rewrite length_fmap).
  rewrite <- Hlen. clear. induction (exp_shifted l) as [|e es IH]; [done|].
  cbn [fmap list_fmap length replicate]. by rewrite div_nan_r, <- IH.
Qed.

Lemma nan_or_none l : S754_nan ∈ l ∨ Forall (λ x, is_nan x = false) l.
Proof.
  induction l as [|x l [IH|IH]].
  - right. constructor.
  - left. by right.
  - destruct x as [sx|sx| |sx mx ex]; try (right; by constructor). left. by left.
Qed.

(** [+inf] is the maximum of a buffer that holds it and no NaN. *)
Lemma running_max_inf mx l :
  Forall (λ x, is_nan x = false) (mx :: l) → S754_infinity false ∈ mx :: l →
  running_max mx l = S754_infinity false.
Proof.
  revert mx. induction l as [|x l IH]; intros mx Hnan Hin.
  - by apply list_elem_of_singleton in Hin.
  - inversion Hnan as [|? ? Hmx Hnan']; subst.
    inversion Hnan' as [|? ? Hx Hl]; subst.
    cbn [running_max foldl]. fold (running_max (if f_gt x mx then x else mx) l).
    apply IH.
    + constructor; [by destruct (f_gt x mx)|done].
    + apply elem_of_cons in Hin as [<-|Hin].
      * apply elem_of_cons. left. by destruct x as [[]|[]| |[] ? ?].
      * apply elem_of_cons in Hin as [<-|Hin]; apply elem_of_cons; [|by right].
        left. by destruct mx as [[]|[]| |[] ? ?].
Qed.

(** A NaN among the inputs of a column makes its sum a NaN. *)
Lemma col_sum_nan W X cols j n i :
  i < n → X !! i = Some S754_nan → col_sum W X cols j n = S754_nan.
Proof.
  intros Hi HX. induction n as [|n IH]; [lia|]. cbn [col_sum].
  destruct (decide (i = n)) as [->|Hne].
  - rewrite (nth_lookup_Some _ _ _ _ HX). by rewrite mul_nan_r, add_nan_r.
  - by rewrite IH by lia.
Qed.

Lemma hidden_nan_input W1 B1 X n k i :
  i < n → X !! i = Some S754_nan → hidden W1 B1 X n k = replicate k b32_zero.
Proof.
  intros Hi HX. unfold hidden, dense. rewrite <- list_fmap_compose.
  apply fmap_seq_const. intros j _. simpl.
  by rewrite (col_sum_nan _ _ _ _ _ i).
Qed.

End Binary32Nan.

Section MoreExampleFacts.
Import Binary32 Examples.

Ltac solve_notin :=
  simpl; repeat (apply not_elem_of_cons; split; [lia|]); apply not_elem_of_nil.


Lemma nan_wired : wired id_nn nan_mem id_W id_B id_W id_B id_Hb.
Proof.
  split; try done; try (cbv [HIDDEN_CAPACITY] in *; simpl; lia); solve_notin.
Qed.

Lemma nan_call : call_buffers id_nn nan_mem 4 5 nan_X id_O.
Proof.
  split; try done; try (cbv [HIDDEN_CAPACITY] in *; simpl; lia); solve_notin.
Qed.

End MoreExampleFacts.

(** * The properties of the specification *)

Section C1.
Context {F : Type} {FA : FloatArith F}.
Implicit Types (m : memory F).

(** C1.  [matvec_multiply(weights, input, output, rows, cols)] on a table of
    [rows * cols] weights and an input of [rows] elements leaves in
    [output[j]], for every [j < cols], the sum over [i < rows] of
    [weights[i * cols + j] * input[i]] (accumulated from [0.0f] in increasing
    [i]: the transposed, input-major convention).  The former contents of
    [output[0 .. cols)] do not enter the result: they are overwritten, not
    added to.  Nothing else in memory changes. *)
Theorem matvec_multiply_spec weights input output rows cols m (W X O : list F) :
  m !! weights = Some W → m !! input = Some X → m !! output = Some O →
  rows * cols ≤ length W → rows ≤ length X → cols ≤ length O →
  (N.of_nat (length W) < 2 ^ SIZE_BITS)%N →
  output ≠ weights → output ≠ input →
  ∃ O', MatrixOps.matvec_multiply weights input output rows cols m
        = Ok tt (<[output := O']> m)
      ∧ length O' = length O
      ∧ (∀ j, j < cols → O' !! j = Some (col_sum W X cols j rows))
      ∧ (∀ j, cols ≤ j → O' !! j = O !! j).
Proof.
  intros Hw Hx Ho HW HX HO Hfit Hnw Hni.
  exists (matvec W X rows cols ++ drop cols O).
  assert (Hlen : length (matvec W X rows cols) = cols)
    by (unfold matvec; by rewrite length_fmap, length_seq).
  split; [apply (matvec_multiply_ok _ _ _ _ _ _ W X O); try done; lia|].
  split; [rewrite length_app, Hlen, length_drop; lia|]. split.
  - intros j Hj. rewrite lookup_app_l by lia.
    unfold matvec. by rewrite list_lookup_fmap, lookup_seq_lt.
  - intros j Hj. rewrite lookup_app_r by lia.
    rewrite Hlen, lookup_drop. f_equal. lia.
Qed.

End C1.

(** [matvec_multiply] on the [2 x 3] table. *)
Lemma matvec_multiply_spec_witness :
  ∃ O' : list Binary32.float32,
    MatrixOps.matvec_multiply 0 1 2 2 3 Examples.mv_mem
    = Ok tt (<[2 := O']> Examples.mv_mem)
    ∧ length O' = length Examples.mv_O
    ∧ (∀ j, j < 3 → O' !! j = Some (col_sum Examples.mv_W Examples.mv_X 3 j 2))
    ∧ (∀ j, 3 ≤ j → O' !! j = Examples.mv_O !! j).
Proof.
  apply (matvec_multiply_spec 0 1 2 2 3 Examples.mv_mem
           Examples.mv_W Examples.mv_X Examples.mv_O);
    try reflexivity; simpl; lia.
Defined.

Section C2.
Import Binary32.
Context (LM : Libm float32).
Implicit Types (m : memory float32) (nn : NeuralNetwork).

(** C2.  On a network whose layers chain and whose hidden width fits the
    intermediate buffer, [predict(input, output)] computes layer 1 into the
    intermediate buffer: the dense layer [d], then ReLU, which keeps an
    element that is greater than [0.0f] and puts [0.0f] in place of any
    other; and layer 2 into the caller's output buffer: the dense layer [z]
    on the hidden activations [h], then softmax.  No block other than these
    two changes.  When there is at least one class and the scores [z] are
    finite, the output is a probability distribution: every element is a
    finite float in [[0, 1]], and their sum is [1] up to rounding.  Of
    [expf] the last part takes that it is [1] at a zero and a float of
    [[0, 1]] at every argument that is not positive. *)
Theorem predict_spec nn input output m (W1 B1 W2 B2 Hb X O : list float32) :
  wired nn m W1 B1 W2 B2 Hb → call_buffers nn m input output X O →
  chained nn →
  ∃ m' d h z p,
    Network.predict nn input output m = Ok tt m'
    ∧ d = dense W1 B1 X (layer1_input_size_ nn) (layer1_output_size_ nn)
    ∧ h = (λ v, if SFltb b32_zero v then v else b32_zero) <$> d
    ∧ z = dense W2 B2 h (layer2_input_size_ nn) (layer2_output_size_ nn)
    ∧ p = softmax_list z
    ∧ length p = layer2_output_size_ nn
    ∧ m' !! layer1_output_ nn = Some (h ++ drop (layer1_output_size_ nn) Hb)
    ∧ m' !! output = Some (p ++ drop (layer2_output_size_ nn) O)
    ∧ (∀ q, q ≠ output → q ≠ layer1_output_ nn → m' !! q = m !! q)
    ∧ (expf_spec LM →
       all_valid W1 → all_valid B1 → all_valid W2 → all_valid B2 →
       all_valid X →
       0 < layer2_output_size_ nn →
       (Z.of_nat (layer2_output_size_ nn) < 2 ^ 24)%Z →
       Forall (λ v, is_finite v = true) z →
       Forall probability p
       ∧ (Rabs (Rsum (B2R <$> p) - 1)
          <= rounding_tolerance (layer2_output_size_ nn))%R).
Proof.
  intros Hw Hc Hch. eexists _, _, _, _, _.
  split; [by eapply predict_ok|]. split; [done|]. split; [done|].
  split; [done|]. split; [done|].
  split; [by rewrite length_softmax_list, length_dense|].
  split; [by rewrite (lookup_buffer_after nn input output m W1 B1 W2 B2 Hb X O Hw Hc)|].
  split.
  { rewrite (lookup_output_after nn input output m W1 B1 W2 B2 Hb X O Hw Hc).
    rewrite output_after_chained by done. unfold forward, hidden.
    unfold chained in Hch. by rewrite Hch. }
  split; [intros q Hq1 Hq2; by rewrite !block_insert_ne|].
  intros Hexp HW1 HB1 HW2 HB2 HX Hpos Hsize Hfin.
  set (z := dense W2 B2 _ _ _) in *.
  assert (Hlz : length z = layer2_output_size_ nn) by apply length_dense.
  rewrite <- Hlz. apply softmax_list_probabilities; [done| | |lia].
  - intros Hnil. rewrite Hnil in Hlz. simpl in Hlz. lia.
  - assert (Hvz : all_valid z).
    { apply dense_valid; [done..|]. apply relu_valid. by apply dense_valid. }
    apply list.Forall_forall. intros v Hv. split.
    + by apply (proj1 (list.Forall_forall _ _) Hvz).
    + by apply (proj1 (list.Forall_forall _ _) Hfin).
Qed.

End C2.

(** The identity network on the input [[1.0, 2.0]]: the scores are
    [[1.0, 2.0]], two classes, both finite. *)
Lemma predict_spec_witness :
  ∃ (m' : memory Binary32.float32) d h z p,
    Network.predict (LM := libm_clamped) Examples.id_nn 4 5 Examples.id_mem
    = Ok tt m'
    ∧ d = dense Examples.id_W Examples.id_B Examples.id_X 2 2
    ∧ h = (λ v, if SFltb Binary32.b32_zero v then v else Binary32.b32_zero) <$> d
    ∧ z = dense Examples.id_W Examples.id_B h 2 2
    ∧ p = softmax_list (LM := libm_clamped) z
    ∧ length p = 2
    ∧ m' !! 6 = Some (h ++ drop 2 Examples.id_Hb)
    ∧ m' !! 5 = Some (p ++ drop 2 Examples.id_O)
    ∧ (∀ q, q ≠ 5 → q ≠ 6 → m' !! q = Examples.id_mem !! q)
    ∧ Forall probability p
    ∧ (Rabs (Rsum (B2R <$> p) - 1) <= rounding_tolerance 2)%R.
Proof.
  destruct (predict_spec libm_clamped Examples.id_nn 4 5 Examples.id_mem
              Examples.id_W Examples.id_B Examples.id_W Examples.id_B
              Examples.id_Hb Examples.id_X Examples.id_O
              (id_wired _ Examples.id_Hb Examples.id_O eq_refl eq_refl)
              (id_call _ Examples.id_Hb Examples.id_O eq_refl eq_refl) eq_refl)
    as (m' & d & h & z & p & Hrun & Hd & Hh & Hz & Hp & Hlen & Hbuf & Hout
        & Hframe & Hdist).
  exists m', d, h, z, p. repeat (split; [assumption|]).
  apply Hdist;
    [exact expf_clamped_spec|apply id_tables_valid..|simpl; lia|done|].
  rewrite Hz, Hh, Hd. by repeat constructor.
Defined.

(** A chained network with finite tables and a finite input whose hidden
    activation overflows: [2.0f * FLT_MAX] is [+inf], the scores
    [0.0f * inf] are NaN, and so are both outputs.  A NaN is not in
    [[0, 1]]: both comparisons with it are false. *)
Lemma predict_overflow_is_nan :
  chained Examples.ov_nn
  ∧ layer1_output_size_ Examples.ov_nn ≤ HIDDEN_CAPACITY
  ∧ Forall (λ v, Binary32.is_finite v = true)
      (Examples.ov_W1 ++ Examples.ov_B1 ++ Examples.ov_W2 ++ Examples.ov_B2
       ++ Examples.ov_X)
  ∧ (∃ m', Network.predict (LM := Binary32.libm_ref) Examples.ov_nn 4 5
             Examples.ov_mem = Ok tt m'
         ∧ m' !! 5 = Some [S754_nan; S754_nan])
  ∧ SFleb Binary32.b32_zero S754_nan = false
  ∧ SFleb S754_nan Binary32.b32_one = false.
Proof.
  split; [done|]. split; [unfold HIDDEN_CAPACITY; simpl; lia|].
  split; [by repeat constructor|]. split; [|done].
  eexists. split; by vm_compute.
Qed.

Section C3.
Import Binary32.
Context (LM : Libm float32).

(** C3.  In binary32, on a non-empty buffer of finite floats, [softmax]
    finds the maximum [mx], an element that none is greater than, replaces
    each element [x] by [expf(x - mx)] and divides each of these by their
    sum [s], accumulated from [0.0f].  Every result is a finite float in
    [[0, 1]], whatever the magnitude of the scores, and the results sum to
    [1] up to rounding: within [n * (n + 1) / 2^23] for [n] elements, and
    within twice that when they are added up as floats.  The scores [[1000, 1000, 1000]] give three times [1.0f / 3.0f].  Of [expf]
    this takes that it is [1] at a zero and a float of [[0, 1]] at every
    argument that is not positive. *)
Theorem softmax_spec data size (m : memory float32) (D : list float32) :
  expf_spec LM →
  m !! data = Some D → 0 < size → size ≤ length D →
  (Z.of_nat size < 2 ^ 24)%Z →
  Forall finite_float (take size D) →
  ∃ mx e s p,
    Activation.softmax data size m = Ok tt (<[data := p ++ drop size D]> m)
    ∧ mx ∈ take size D ∧ (∀ x, x ∈ take size D → SFltb mx x = false)
    ∧ e = (λ x, f_expf (f_sub x mx)) <$> take size D
    ∧ s = foldl f_add f_zero e
    ∧ p = (λ y, f_div y s) <$> e
    ∧ Forall probability p
    ∧ (Rabs (Rsum (B2R <$> p) - 1) <= rounding_tolerance size)%R
    ∧ is_finite (foldl f_add f_zero p) = true
    ∧ (Rabs (B2R (foldl f_add f_zero p) - 1) <= 2 * rounding_tolerance size)%R
    ∧ Activation.softmax 0 3 [Examples.f32 <$> [1000; 1000; 1000]%Z]
      = Ok tt [[Examples.third; Examples.third; Examples.third]].
Proof.
  intros Hexp Hd Hpos Hs Hsize Hfin.
  set (l := take size D) in *.
  assert (Hlen : length l = size) by (unfold l; rewrite length_take_le; lia).
  assert (Hne : l ≠ []).
  { intros Hnil. rewrite Hnil in Hlen. simpl in Hlen. lia. }
  destruct (max_of_spec l Hne Hfin) as [Hin Hmax].
  destruct (softmax_list_probabilities LM l Hexp Hne Hfin ltac:(lia)) as [Hp Hsum].
  exists (max_of l), (exp_shifted l), (float_sum (exp_shifted l)), (softmax_list l).
  split; [apply softmax_ok; [done|lia|done]|].
  split; [done|]. split.
  { intros x Hx. apply not_true_is_false. intros Hlt.
    apply SFltb_B2R in Hlt; [|by apply (proj1 (list.Forall_forall _ _) Hfin)..].
    specialize (Hmax x Hx). lra. }
  split; [done|]. split; [done|]. split; [done|]. split; [done|].
  split; [by rewrite <- Hlen|].
  destruct (softmax_list_float_sum LM l Hexp Hne Hfin ltac:(lia)) as [Hfs Hfsum].
  split; [done|]. split; [by rewrite <- Hlen|].
  rewrite (softmax_ok 0 3 _ (Examples.f32 <$> [1000; 1000; 1000]%Z))
    by (done || (simpl; lia)).
  change (take 3 (Examples.f32 <$> [1000; 1000; 1000]%Z))
    with [Examples.f32 1000; Examples.f32 1000; Examples.f32 1000].
  by rewrite (softmax_list_equal_scores LM (Examples.f32 1000) eq_refl
                (expf_zero LM Hexp false)).
Qed.

End C3.

(** [softmax] of the scores [[1.0, 2.0]]. *)
Lemma softmax_spec_witness :
  ∃ mx e s p,
    Activation.softmax (LM := libm_clamped) 0 2 [Examples.id_X]
    = Ok tt (<[0 := p ++ drop 2 Examples.id_X]> [Examples.id_X])
    ∧ mx ∈ take 2 Examples.id_X
    ∧ (∀ x, x ∈ take 2 Examples.id_X → SFltb mx x = false)
    ∧ e = (λ x, f_expf (Libm := libm_clamped) (f_sub x mx)) <$> take 2 Examples.id_X
    ∧ s = foldl f_add f_zero e
    ∧ p = (λ y, f_div y s) <$> e
    ∧ Forall probability p
    ∧ (Rabs (Rsum (B2R <$> p) - 1) <= rounding_tolerance 2)%R
    ∧ Binary32.is_finite (foldl f_add f_zero p) = true
    ∧ (Rabs (B2R (foldl f_add f_zero p) - 1) <= 2 * rounding_tolerance 2)%R
    ∧ Activation.softmax (LM := libm_clamped) 0 3
        [Examples.f32 <$> [1000; 1000; 1000]%Z]
      = Ok tt [[Examples.third; Examples.third; Examples.third]].
Proof.
  apply (softmax_spec libm_clamped 0 2 [Examples.id_X] Examples.id_X
           expf_clamped_spec eq_refl);
    [lia|simpl; lia|done|by repeat constructor].
Defined.

(** In binary32 the buffer [[+inf]] comes out as [[NaN]]: [inf - inf] is a
    NaN, and so are its exponential, the sum and the quotient.  A NaN is not
    in [[0, 1]]: both comparisons with it are false. *)
Lemma softmax_inf_is_nan :
  Activation.softmax (LM := Binary32.libm_ref) 0 1 [[S754_infinity false]]
  = Ok tt [[S754_nan]]
  ∧ SFleb Binary32.b32_zero S754_nan = false
  ∧ SFleb S754_nan Binary32.b32_one = false.
Proof. by vm_compute. Qed.

Section C4.
Import Binary32.
Context (LM : Libm float32).
Implicit Types (m : memory float32) (nn : NeuralNetwork).

(** C4.  On a network with three classes [predict_class] runs
    [predict] into a local buffer of three floats and returns the index of
    the maximum of the three probabilities: the scan starts from index 0 and
    moves to a later index only on a strictly greater value, so of several
    maxima the first is returned, and no element is greater than the one
    selected.  The index lies in [[0, 3)], the number of classes.  The local
    buffer is gone on return.  With 18 hidden units and all-zero weights
    and biases the probabilities are [[1/3, 1/3, 1/3]] on every input and
    the class is 0. *)
Theorem predict_class_spec nn input junk m (W1 B1 W2 B2 Hb X : list float32) :
  wired nn m W1 B1 W2 B2 Hb →
  m !! input = Some X → layer1_input_size_ nn ≤ length X →
  input ≠ layer1_output_ nn →
  chained nn → layer2_output_size_ nn = CLASS_BUFFER →
  ∃ p0 p1 p2 k m',
    forward W1 B1 W2 B2 X (layer1_input_size_ nn) (layer1_output_size_ nn) 3
    = [p0; p1; p2]
    ∧ Network.predict_class nn input junk m = Ok k m'
    ∧ length m' = length m
    ∧ k = argmax [p0; p1; p2]
    ∧ k = (if f_gt p1 p0 then if f_gt p2 p1 then 2 else 1
           else if f_gt p2 p0 then 2 else 0)%Z
    ∧ (0 ≤ k < Z.of_nat (layer2_output_size_ nn))%Z
    ∧ (∃ pk, [p0; p1; p2] !! Z.to_nat k = Some pk
           ∧ Forall (λ q, f_gt q pk = false) [p0; p1; p2])
    ∧ (all_zero W1 → all_zero B1 → all_zero W2 → all_zero B2 →
       layer1_output_size_ nn = 18 → f_expf b32_zero = b32_one →
       [p0; p1; p2] = [Examples.third; Examples.third; Examples.third]
       ∧ k = 0%Z).
Proof.
  intros Hw Hin HX Hsep Hch Hout.
  pose proof (predict_class_ok nn input junk m W1 B1 W2 B2 Hb X Hw Hin HX Hsep)
    as Hrun.
  rewrite Hout in Hrun. specialize (Hrun ltac:(cbv; lia)).
  rewrite output_after_chained in Hrun by done. rewrite Hout in Hrun.
  change (drop CLASS_BUFFER (junk <$> seq 0 CLASS_BUFFER)) with (@nil float32) in Hrun.
  rewrite app_nil_r in Hrun. change CLASS_BUFFER with 3 in Hrun.
  set (P := forward W1 B1 W2 B2 X (layer1_input_size_ nn) (layer1_output_size_ nn) 3)
    in *.
  assert (HP : length P = 3)
    by (unfold P, forward; by rewrite length_softmax_list, length_dense).
  destruct P as [|p0 [|p1 [|p2 [|??]]]] eqn:HeqP; try done.
  eexists p0, p1, p2, (argmax [p0; p1; p2]), _.
  split; [done|]. split; [exact Hrun|].
  split; [by rewrite length_insert|]. split; [done|].
  split; [apply argmax_three|].
  split; [|split; [apply argmax_three_max|]].
  - rewrite argmax_three, Hout.
    destruct (f_gt p1 p0), (f_gt p2 p1), (f_gt p2 p0); cbv; done.
  - intros HW1 HB1 HW2 HB2 Hhid Hexp.
    assert (Hz : [p0; p1; p2] = [Examples.third; Examples.third; Examples.third]).
    { rewrite <- HeqP. unfold P. rewrite Hhid. by apply forward_zero. }
    split; [done|]. by rewrite Hz.
Qed.

End C4.

(** The all-zero network with 18 hidden units and 3 classes, on an input
    that holds an infinity. *)
Lemma predict_class_spec_witness :
  (all_zero Examples.z_W1 ∧ all_zero Examples.z_B1 ∧ all_zero Examples.z_W2
   ∧ all_zero Examples.z_B2 ∧ f_expf (Libm := Binary32.libm_ref) Binary32.b32_zero
                               = Binary32.b32_one)
  ∧ ∃ p0 p1 p2 k m',
    forward (LM := Binary32.libm_ref) Examples.z_W1 Examples.z_B1 Examples.z_W2
      Examples.z_B2 Examples.z_X 2 18 3
    = [p0; p1; p2]
    ∧ Network.predict_class (LM := Binary32.libm_ref) Examples.z_nn 4
        (λ _, Binary32.b32_one) Examples.z_mem = Ok k m'
    ∧ length m' = length Examples.z_mem
    ∧ k = argmax [p0; p1; p2]
    ∧ k = (if f_gt p1 p0 then if f_gt p2 p1 then 2 else 1
           else if f_gt p2 p0 then 2 else 0)%Z
    ∧ (0 ≤ k < 3)%Z
    ∧ (∃ pk, [p0; p1; p2] !! Z.to_nat k = Some pk
           ∧ Forall (λ q, f_gt q pk = false) [p0; p1; p2])
    ∧ (all_zero Examples.z_W1 → all_zero Examples.z_B1 → all_zero Examples.z_W2 →
       all_zero Examples.z_B2 → 18 = 18 →
       f_expf (Libm := Binary32.libm_ref) Binary32.b32_zero = Binary32.b32_one →
       [p0; p1; p2] = [Examples.third; Examples.third; Examples.third]
       ∧ k = 0%Z).
Proof.
  split.
  - repeat split; try done; by apply Forall_replicate.
  - exact (predict_class_spec Binary32.libm_ref Examples.z_nn 4
             (λ _, Binary32.b32_one) Examples.z_mem Examples.z_W1 Examples.z_B1
             Examples.z_W2 Examples.z_B2 Examples.z_Hb Examples.z_X
             z_wired eq_refl ltac:(simpl; lia) ltac:(simpl; lia)
             eq_refl eq_refl).
Defined.

(** On a network with two classes the scan runs over three floats all the
    same: the third is whatever the local buffer held, and index 2, which is
    no class, is returned when that value exceeds both probabilities. *)
Lemma predict_class_two_classes :
  layer2_output_size_ Examples.t_nn = 2
  ∧ Network.predict_class (LM := Binary32.libm_ref) Examples.t_nn 4
      (λ _, Binary32.b32_one) Examples.t_mem
    = Ok 2%Z Examples.t_mem.
Proof. split; [done|by vm_compute]. Qed.

Section C5.
Context {F : Type} {FA : FloatArith F} {LM : Libm F}.

(** C5.  [softmax] does not guard the buffer of length 0: its first
    statement reads [data[0]] whatever [size] is, an element that an empty
    buffer does not have, and the call stops there with that read out of
    bounds.  On a buffer of at least one element, with [size] at most its
    length, the call returns, every access having been within the buffer,
    and leaves the elements from [size] on as they were. *)
Theorem softmax_access_spec data size (m : memory F) (D : list F) :
  m !! data = Some D →
  (D = [] → Activation.softmax data size m = Fault (OobRead data 0))
  ∧ (D ≠ [] → size ≤ length D →
     ∃ D', Activation.softmax data size m = Ok tt (<[data := D']> m)
         ∧ length D' = length D ∧ drop size D' = drop size D).
Proof.
  intros Hd. split.
  - intros ->. by apply softmax_reads_first_element.
  - intros Hne Hs. eexists. split.
    + apply softmax_ok; [done| |done]. destruct D; [done|simpl; lia].
    + assert (Hl : length (softmax_list (take size D)) = size).
      { rewrite length_softmax_list, length_take_le; lia. }
      split.
      * rewrite length_app, Hl, length_drop. lia.
      * by rewrite drop_app_length'.
Qed.

End C5.

(** [softmax] on two elements of a buffer of three. *)
Lemma softmax_access_spec_witness :
  ∃ D', Activation.softmax (LM := Binary32.libm_ref) 0 2 [Examples.va_A]
        = Ok tt (<[0 := D']> [Examples.va_A])
      ∧ length D' = length Examples.va_A ∧ drop 2 D' = drop 2 Examples.va_A.
Proof.
  apply (proj2 (softmax_access_spec (LM := Binary32.libm_ref) 0 2
                  [Examples.va_A] Examples.va_A eq_refl));
    [done|simpl; lia].
Defined.

(** Called on a buffer of length 0, [softmax] starts by reading [data[0]],
    an element the buffer does not have: the first statement
    [float max_val = data[0]] is not guarded by [size]. *)
Lemma softmax_empty_reads_out_of_bounds :
  Activation.softmax (F := Binary32.float32) (LM := Binary32.libm_ref) 0 0 [[]]
  = Fault (OobRead 0 0).
Proof. reflexivity. Qed.

Section C6.
Import Binary32.
Implicit Types (m : memory float32).

(** C6.  For a buffer of any length, [relu] puts [0.0f] in place of every
    negative element and keeps every non-negative element: a positive
    element (and [0.0f]) is left bit for bit, and [-0.0f], which is not
    negative, comes out as [0.0f], the same value.  No element of the result
    is negative (a NaN, neither negative nor non-negative, becomes [0.0f]).
    Nothing outside the first [size] elements of the buffer changes, and
    with [size = 0] nothing changes at all. *)
Theorem relu_spec data size m (D : list float32) :
  m !! data = Some D → size ≤ length D →
  ∃ D', Activation.relu data size m = Ok tt (<[data := D']> m)
      ∧ length D' = length D
      ∧ (∀ i x, i < size → D !! i = Some x →
           ∃ y, D' !! i = Some y
              ∧ (SFltb x b32_zero = true → y = b32_zero)
              ∧ (SFleb b32_zero x = true → same_value y x)
              ∧ (SFltb b32_zero x = true → y = x)
              ∧ SFltb y b32_zero = false)
      ∧ (∀ i, size ≤ i → D' !! i = D !! i)
      ∧ (size = 0 → <[data := D']> m = m).
Proof.
  intros Hd Hs. eexists. split; [by apply relu_ok|].
  assert (Hlen : length (Activation.relu1 <$> take size D) = size)
    by (rewrite length_fmap, length_take_le; lia).
  split; [rewrite length_app, Hlen, length_drop; lia|]. split; [|split].
  - intros i x Hi Hx. exists (Activation.relu1 x). split.
    + rewrite lookup_app_l by lia.
      rewrite list_lookup_fmap, lookup_take_lt by done. by rewrite Hx.
    + destruct (relu1_cases x) as (? & ? & ? & ? & ?). done.
  - intros i Hi. rewrite lookup_app_r by lia.
    rewrite Hlen, lookup_drop. f_equal. lia.
  - intros ->. simpl. rewrite drop_0. by apply list_insert_id.
Qed.

End C6.

(** [relu] on [[-1.5, -0.0, 0.0, 2.0, NaN, -inf]]. *)
Lemma relu_spec_witness :
  ∃ D', Activation.relu 0 6 [Examples.relu_D] = Ok tt (<[0 := D']> [Examples.relu_D])
      ∧ length D' = length Examples.relu_D
      ∧ (∀ i x, i < 6 → Examples.relu_D !! i = Some x →
           ∃ y, D' !! i = Some y
              ∧ (SFltb x Binary32.b32_zero = true → y = Binary32.b32_zero)
              ∧ (SFleb Binary32.b32_zero x = true → same_value y x)
              ∧ (SFltb Binary32.b32_zero x = true → y = x)
              ∧ SFltb y Binary32.b32_zero = false)
      ∧ (∀ i, 6 ≤ i → D' !! i = Examples.relu_D !! i)
      ∧ (6 = 0 → <[0 := D']> [Examples.relu_D] = [Examples.relu_D]).
Proof.
  apply (relu_spec 0 6 [Examples.relu_D] Examples.relu_D); [reflexivity|simpl; lia].
Defined.

Section C7.
Import Binary32.
Implicit Types (m : memory float32).

(** C7.  [dense_forward] is [matvec_multiply] followed by the
    addition of the bias, element by element, with no activation:
    [output[j]] is the sum over [i] of [weights[i * output_size + j] *
    input[i]], plus [bias[j]].  When all the weights are zero and the input
    holds neither a NaN nor an infinity, that sum is [0.0f] and [output[j]]
    is [bias[j]]: the same float, except that a bias of [-0.0f] comes out as
    [0.0f]. *)
Theorem dense_forward_spec input weights bias output input_size output_size m
    (X W B O : list float32) :
  m !! input = Some X → m !! weights = Some W → m !! bias = Some B →
  m !! output = Some O →
  input_size * output_size ≤ length W → input_size ≤ length X →
  output_size ≤ length B → output_size ≤ length O →
  (N.of_nat (length W) < 2 ^ SIZE_BITS)%N →
  output ≠ weights → output ≠ input → output ≠ bias →
  ∃ O', MatrixOps.dense_forward input weights bias output input_size output_size m
        = Ok tt (<[output := O']> m)
      ∧ length O' = length O
      ∧ (∀ j b, j < output_size → B !! j = Some b →
           O' !! j = Some (f_add (col_sum W X output_size j input_size) b))
      ∧ (∀ j, output_size ≤ j → O' !! j = O !! j)
      ∧ (all_zero W → all_finite (take input_size X) →
         ∀ j b, j < output_size → B !! j = Some b →
           ∃ y, O' !! j = Some y ∧ same_value y b
              ∧ (b ≠ S754_zero true → y = b)).
Proof.
  intros Hx Hw Hb Ho HW HX HB HO Hfit Hnw Hni Hnb.
  eexists. split; [apply (dense_forward_ok _ _ _ _ _ _ _ X W B O); try done; lia|].
  assert (Hlen : length (dense W B X input_size output_size) = output_size)
    by apply length_dense.
  assert (Hj : ∀ j b, j < output_size → B !! j = Some b →
            (dense W B X input_size output_size ++ drop output_size O) !! j
            = Some (f_add (col_sum W X output_size j input_size) b)).
  { intros j b Hj HBj. rewrite lookup_app_l by lia. unfold dense.
    rewrite list_lookup_fmap, lookup_seq_lt by done. simpl.
    by rewrite (nth_lookup_Some B j _ b HBj). }
  split; [rewrite length_app, Hlen, length_drop; lia|].
  split; [done|]. split.
  - intros j Hj'. rewrite lookup_app_r by lia.
    rewrite Hlen, lookup_drop. f_equal. lia.
  - intros HW0 HX0 j b Hj' HBj. eexists. split; [by apply Hj|].
    rewrite col_sum_zero_finite; [|done|intros; by eapply is_finite_nth].
    split; [apply add_pos_zero_l|apply add_pos_zero_exact].
Qed.

End C7.

(** The all-zero [2 x 2] layer on the input [[3.0, -4.0]]. *)
Lemma dense_forward_spec_witness :
  all_zero Examples.dz_W ∧ all_finite (take 2 Examples.dz_X)
  ∧ ∃ O', MatrixOps.dense_forward 0 1 2 3 2 2 Examples.dz_mem
        = Ok tt (<[3 := O']> Examples.dz_mem)
      ∧ length O' = length Examples.dz_O
      ∧ (∀ j b, j < 2 → Examples.dz_B !! j = Some b →
           O' !! j = Some (f_add (col_sum Examples.dz_W Examples.dz_X 2 j 2) b))
      ∧ (∀ j, 2 ≤ j → O' !! j = Examples.dz_O !! j)
      ∧ (all_zero Examples.dz_W → all_finite (take 2 Examples.dz_X) →
         ∀ j b, j < 2 → Examples.dz_B !! j = Some b →
           ∃ y, O' !! j = Some y ∧ same_value y b
              ∧ (b ≠ S754_zero true → y = b)).
Proof.
  split; [by repeat constructor|]. split; [by repeat constructor|].
  apply (dense_forward_spec 0 1 2 3 2 2 Examples.dz_mem
           Examples.dz_X Examples.dz_W Examples.dz_B Examples.dz_O);
    try reflexivity; simpl; lia.
Defined.

(** With all the weights zero, the input [[+inf]] and the bias [[1.0]],
    [dense_forward] leaves a NaN in [output[0]], not the bias: the product
    [0.0f * inf] is a NaN. *)
Lemma dense_forward_zero_weights_inf :
  all_zero [Binary32.b32_zero]
  ∧ MatrixOps.dense_forward 0 1 2 3 1 1 Examples.dinf_mem
    = Ok tt [[S754_infinity false]; [Binary32.b32_zero]; [Binary32.b32_one];
             [S754_nan]].
Proof. split; [by repeat constructor|by vm_compute]. Qed.

Section C8.
Context {F : Type} {FA : FloatArith F} {LM : Libm F}.
Implicit Types (m : memory F) (nn : NeuralNetwork).

(** C8.  [predict] carries no state from one call to the next: run from any
    two states of the same network (same weight and bias tables) on the same
    input, whatever the intermediate buffer and the output buffer held before,
    it leaves the same probabilities in [output], equal as values of [float].
    The tables are still in place afterwards, so this covers any number of
    earlier calls. *)
Theorem predict_deterministic nn input output m1 m2
    (W1 B1 W2 B2 X Hb1 Hb2 O1 O2 : list F) :
  wired nn m1 W1 B1 W2 B2 Hb1 → call_buffers nn m1 input output X O1 →
  wired nn m2 W1 B1 W2 B2 Hb2 → call_buffers nn m2 input output X O2 →
  chained nn →
  ∃ m1' m2' p Hb1' Hb2',
    Network.predict nn input output m1 = Ok tt m1'
    ∧ Network.predict nn input output m2 = Ok tt m2'
    ∧ length p = layer2_output_size_ nn
    ∧ take (layer2_output_size_ nn) <$> m1' !! output = Some p
    ∧ take (layer2_output_size_ nn) <$> m2' !! output = Some p
    ∧ wired nn m1' W1 B1 W2 B2 Hb1'
    ∧ wired nn m2' W1 B1 W2 B2 Hb2'.
Proof.
  intros Hw1 Hc1 Hw2 Hc2 Hch.
  set (p := forward W1 B1 W2 B2 X (layer1_input_size_ nn)
              (layer1_output_size_ nn) (layer2_output_size_ nn)).
  assert (Hp : length p = layer2_output_size_ nn)
    by (unfold p, forward; by rewrite length_softmax_list, length_dense).
  eexists _, _, p, _, _.
  split; [by eapply predict_ok|]. split; [by eapply predict_ok|].
  split; [done|].
  split; [|split; [|split; by eapply predict_wired]].
  - rewrite (lookup_output_after nn input output m1 W1 B1 W2 B2 Hb1 X O1 Hw1 Hc1).
    simpl. rewrite output_after_chained by done. by rewrite take_app_length'.
  - rewrite (lookup_output_after nn input output m2 W1 B1 W2 B2 Hb2 X O2 Hw2 Hc2).
    simpl. rewrite output_after_chained by done. by rewrite take_app_length'.
Qed.

End C8.

(** The identity network run from a fresh state, and from a state whose
    intermediate buffer and output buffer are dirty. *)
Lemma predict_deterministic_witness :
  ∃ (m1' m2' : memory Binary32.float32) p Hb1' Hb2',
    Network.predict (LM := Binary32.libm_ref) Examples.id_nn 4 5 Examples.id_mem
    = Ok tt m1'
    ∧ Network.predict (LM := Binary32.libm_ref) Examples.id_nn 4 5
        (<[5 := Examples.id_X]> (<[6 := replicate 18 Binary32.b32_one]> Examples.id_mem))
      = Ok tt m2'
    ∧ length p = 2
    ∧ take 2 <$> m1' !! 5 = Some p
    ∧ take 2 <$> m2' !! 5 = Some p
    ∧ wired Examples.id_nn m1' Examples.id_W Examples.id_B Examples.id_W
        Examples.id_B Hb1'
    ∧ wired Examples.id_nn m2' Examples.id_W Examples.id_B Examples.id_W
        Examples.id_B Hb2'.
Proof.
  exact (predict_deterministic (LM := Binary32.libm_ref) Examples.id_nn 4 5
           Examples.id_mem
           (<[5 := Examples.id_X]> (<[6 := replicate 18 Binary32.b32_one]> Examples.id_mem))
           Examples.id_W Examples.id_B Examples.id_W Examples.id_B Examples.id_X
           Examples.id_Hb (replicate 18 Binary32.b32_one) Examples.id_O Examples.id_X
           (id_wired _ Examples.id_Hb Examples.id_O eq_refl eq_refl)
           (id_call _ Examples.id_Hb Examples.id_O eq_refl eq_refl)
           (id_wired _ (replicate 18 Binary32.b32_one) Examples.id_X eq_refl eq_refl)
           (id_call _ (replicate 18 Binary32.b32_one) Examples.id_X eq_refl eq_refl)
           eq_refl).
Defined.

Section C9.
Context {F : Type} {FA : FloatArith F}.
Implicit Types (m : memory F).

(** C9.  [vector_add(a, b, output, size)] leaves [a[i] + b[i]] in [output[i]]
    for every [i < size].  No separation of the three buffers is assumed:
    [output] may be [a], or [b], or both, and the sums are those of the
    values the buffers held before the call. *)
Theorem vector_add_spec a b output size m (A B O : list F) :
  m !! a = Some A → m !! b = Some B → m !! output = Some O →
  size ≤ length A → size ≤ length B → size ≤ length O →
  ∃ O', MatrixOps.vector_add a b output size m = Ok tt (<[output := O']> m)
      ∧ length O' = length O
      ∧ (∀ i x y, i < size → A !! i = Some x → B !! i = Some y →
           O' !! i = Some (f_add x y))
      ∧ (∀ i, size ≤ i → O' !! i = O !! i).
Proof.
  intros Ha Hb Ho HA HB HO.
  eexists. split; [by apply (vector_add_ok _ _ _ _ _ A B O)|].
  split; [rewrite length_app, length_fmap, length_seq, length_drop; lia|]. split.
  - intros i x y Hi Hx Hy.
    rewrite lookup_app_l by (rewrite length_fmap, length_seq; lia).
    rewrite list_lookup_fmap, lookup_seq_lt by done. simpl.
    by rewrite (nth_lookup_Some A i f_zero x Hx), (nth_lookup_Some B i f_zero y Hy).
  - intros i Hi.
    rewrite lookup_app_r; rewrite length_fmap, length_seq; [|lia].
    rewrite lookup_drop. f_equal. lia.
Qed.

End C9.

(** In-place accumulation: [vector_add(a, b, a, 3)]. *)
Lemma vector_add_spec_witness :
  ∃ O' : list Binary32.float32,
    MatrixOps.vector_add 0 1 0 3 Examples.va_mem
    = Ok tt (<[0 := O']> Examples.va_mem)
    ∧ length O' = length Examples.va_A
    ∧ (∀ i x y, i < 3 → Examples.va_A !! i = Some x →
         Examples.va_B !! i = Some y → O' !! i = Some (f_add x y))
    ∧ (∀ i, 3 ≤ i → O' !! i = Examples.va_A !! i).
Proof.
  apply (vector_add_spec 0 1 0 3 Examples.va_mem
           Examples.va_A Examples.va_B Examples.va_A);
    try reflexivity; simpl; lia.
Defined.

Section C10.
Context {F : Type} {FA : FloatArith F} {LM : Libm F}.
Implicit Types (m : memory F) (nn : NeuralNetwork).

(** C10.  The constructor clears all 18 slots of the intermediate buffer,
    and a [predict] call on a network of hidden width at most 18 rewrites
    the first [layer1_output_size_] slots only: the slots from
    [layer1_output_size_] on hold [0.0f] after construction and after every
    call. *)
Theorem intermediate_tail_zero nn input output m (W1 B1 W2 B2 Hb X O : list F) :
  wired nn m W1 B1 W2 B2 Hb → call_buffers nn m input output X O →
  tail_zero nn Hb →
  (∃ m' Hb',
     Network.predict nn input output m = Ok tt m'
     ∧ wired nn m' W1 B1 W2 B2 Hb'
     ∧ take (layer1_output_size_ nn) Hb'
       = hidden W1 B1 X (layer1_input_size_ nn) (layer1_output_size_ nn)
     ∧ drop (layer1_output_size_ nn) Hb' = drop (layer1_output_size_ nn) Hb
     ∧ tail_zero nn Hb')
  ∧ (∀ l1w l1b l1_in l1_out l2w l2b l2_in l2_out junk (m0 : memory F),
       ∃ nn0 m0',
         Network.construct l1w l1b l1_in l1_out l2w l2b l2_in l2_out junk m0
         = Ok nn0 m0'
         ∧ layer1_output_size_ nn0 = l1_out
         ∧ m0' !! layer1_output_ nn0 = Some (replicate HIDDEN_CAPACITY f_zero)
         ∧ tail_zero nn0 (replicate HIDDEN_CAPACITY f_zero)).
Proof.
  intros Hw Hc Htail. split.
  - eexists _, _. split; [by eapply predict_ok|].
    split; [by eapply predict_wired|].
    unfold buffer_after.
    split; [by rewrite take_app_length' by (by rewrite length_hidden)|].
    split; [by rewrite drop_app_length' by (by rewrite length_hidden)|].
    intros i Hi1 Hi2.
    rewrite lookup_app_r; rewrite length_hidden; [|done].
    rewrite lookup_drop. rewrite <- (Htail i Hi1 Hi2). f_equal. lia.
  - intros. eexists _, _. split; [apply construct_ok|]. split; [done|].
    split; [apply list_lookup_middle, eq_refl|].
    intros i _ Hi. by apply lookup_replicate_2.
Qed.

End C10.

(** The identity network, whose hidden width is 2: slots 2 to 17 stay clear. *)
Lemma intermediate_tail_zero_witness :
  (∃ (m' : memory Binary32.float32) Hb',
     Network.predict (LM := Binary32.libm_ref) Examples.id_nn 4 5 Examples.id_mem
     = Ok tt m'
     ∧ wired Examples.id_nn m' Examples.id_W Examples.id_B Examples.id_W
         Examples.id_B Hb'
     ∧ take 2 Hb' = hidden Examples.id_W Examples.id_B Examples.id_X 2 2
     ∧ drop 2 Hb' = drop 2 Examples.id_Hb
     ∧ tail_zero Examples.id_nn Hb')
  ∧ (∀ l1w l1b l1_in l1_out l2w l2b l2_in l2_out junk (m0 : memory Binary32.float32),
       ∃ nn0 m0',
         Network.construct l1w l1b l1_in l1_out l2w l2b l2_in l2_out junk m0
         = Ok nn0 m0'
         ∧ layer1_output_size_ nn0 = l1_out
         ∧ m0' !! layer1_output_ nn0 = Some (replicate HIDDEN_CAPACITY f_zero)
         ∧ tail_zero (F := Binary32.float32) nn0 (replicate HIDDEN_CAPACITY f_zero)).
Proof.
  exact (intermediate_tail_zero (LM := Binary32.libm_ref) Examples.id_nn 4 5
           Examples.id_mem Examples.id_W Examples.id_B Examples.id_W Examples.id_B
           Examples.id_Hb Examples.id_X Examples.id_O
           (id_wired _ Examples.id_Hb Examples.id_O eq_refl eq_refl)
           (id_call _ Examples.id_Hb Examples.id_O eq_refl eq_refl) id_tail_zero).
Defined.

(** * Further properties of the code *)

Section HiddenOverflow.
Context {F : Type} {FA : FloatArith F} {LM : Libm F}.
Implicit Types (m : memory F) (nn : NeuralNetwork).

(** X1.  [predict] does not compare the hidden width with the capacity of
    the intermediate buffer: on a network with more than 18 hidden units the
    call writes [layer1_output_[18]], past the end of the array, while
    [matvec_multiply] clears its output; nothing is computed before that. *)
Theorem predict_hidden_overflow nn input output m (Hb : list F) :
  m !! layer1_output_ nn = Some Hb → length Hb = HIDDEN_CAPACITY →
  HIDDEN_CAPACITY < layer1_output_size_ nn →
  Network.predict nn input output m = Fault (OobWrite (layer1_output_ nn) 18).
Proof.
  intros Hbuf Hlen Hcap.
  unfold Network.predict, MatrixOps.dense_forward, MatrixOps.matvec_multiply.
  unfold bind at 1. unfold bind at 1. unfold bind at 1.
  erewrite for_store_overflow; [by rewrite Hlen|done|lia].
Qed.


End HiddenOverflow.

(** A network of 19 hidden units on the tables of the identity network. *)
Lemma predict_hidden_overflow_witness :
  Network.predict (LM := Binary32.libm_ref)
    {| layer1_weights_ := 0; layer1_bias_ := 1;
       layer1_input_size_ := 2; layer1_output_size_ := 19;
       layer2_weights_ := 2; layer2_bias_ := 3;
       layer2_input_size_ := 19; layer2_output_size_ := 2;
       layer1_output_ := 6 |} 4 5 Examples.id_mem
  = Fault (OobWrite 6 18).
Proof.
  apply (predict_hidden_overflow (LM := Binary32.libm_ref)
           {| layer1_weights_ := 0; layer1_bias_ := 1;
              layer1_input_size_ := 2; layer1_output_size_ := 19;
              layer2_weights_ := 2; layer2_bias_ := 3;
              layer2_input_size_ := 19; layer2_output_size_ := 2;
              layer1_output_ := 6 |} 4 5 Examples.id_mem Examples.id_Hb);
    [reflexivity|reflexivity|simpl; unfold HIDDEN_CAPACITY; lia].
Defined.


Section Window.
Context {F : Type}.
Implicit Types (m : memory F) (W : list F).

(** X3.  [add_temperature_to_window] moves every reading of the window one
    place towards index 0, each from the place above it before that place
    is overwritten; the reading at index 0 is dropped and the new reading
    put last.  The length of the window and every other block are kept. *)
Theorem add_temperature_to_window_spec temp_window (t : F) m W :
  m !! temp_window = Some W → length W = Thermal.WINDOW_SIZE →
  ∃ W', Thermal.add_temperature_to_window temp_window t m
        = Ok tt (<[temp_window := W']> m)
      ∧ length W' = Thermal.WINDOW_SIZE
      ∧ (∀ i, i < Thermal.WINDOW_SIZE - 1 → W' !! i = W !! (i + 1))
      ∧ W' !! (Thermal.WINDOW_SIZE - 1) = Some t.
Proof.
  intros Hp Hlen. exists (drop 1 W ++ [t]).
  split; [by apply add_temperature_ok|].
  assert (Hd : length (drop 1 W) = Thermal.WINDOW_SIZE - 1)
    by (rewrite length_drop; lia).
  split; [rewrite length_app, Hd; unfold Thermal.WINDOW_SIZE; simpl; lia|].
  split.
  - intros i Hi. rewrite lookup_app_l by lia. rewrite lookup_drop.
    f_equal. lia.
  - rewrite lookup_app_r by lia. by rewrite Hd, Nat.sub_diag.
Qed.


End Window.

(** A reading of [30.0] added to the window [[20.0, ..., 29.0]]. *)
Lemma add_temperature_to_window_spec_witness :
  ∃ W', Thermal.add_temperature_to_window 0 (Examples.f32 30) [Examples.win_W]
        = Ok tt (<[0 := W']> [Examples.win_W])
      ∧ length W' = Thermal.WINDOW_SIZE
      ∧ (∀ i, i < Thermal.WINDOW_SIZE - 1 → W' !! i = Examples.win_W !! (i + 1))
      ∧ W' !! (Thermal.WINDOW_SIZE - 1) = Some (Examples.f32 30).
Proof.
  apply (add_temperature_to_window_spec 0 (Examples.f32 30) [Examples.win_W]
           Examples.win_W); reflexivity.
Defined.


Section ReluTwice.
Import Binary32.

(** X5.  [relu] is idempotent: a second call on the same elements changes
    nothing, since every element the first call leaves is [0.0f] or greater
    than [0.0f]. *)
Theorem relu_idempotent data size (m : memory float32) (D : list float32) :
  m !! data = Some D → size ≤ length D →
  ∃ m', Activation.relu data size m = Ok tt m'
      ∧ Activation.relu data size m' = Ok tt m'.
Proof.
  intros Hd Hs. eexists. split; [by apply relu_ok|].
  assert (Hl : length (Activation.relu1 <$> take size D) = size)
    by (rewrite length_fmap, length_take_le; lia).
  erewrite relu_ok; [|by eapply block_insert_eq|]; last first.
  { rewrite length_app, Hl, length_drop. lia. }
  rewrite list_insert_insert_eq. do 2 f_equal.
  rewrite take_app_length', drop_app_length' by done.
  f_equal. rewrite <- list_fmap_compose. apply list_fmap_ext.
  intros ? x _. apply relu1_idempotent.
Qed.

End ReluTwice.

(** [relu] twice on [[-1.5, -0.0, 0.0, 2.0, NaN, -inf]]. *)
Lemma relu_idempotent_witness :
  ∃ m', Activation.relu 0 6 [Examples.relu_D] = Ok tt m'
      ∧ Activation.relu 0 6 m' = Ok tt m'.
Proof.
  apply (relu_idempotent 0 6 [Examples.relu_D] Examples.relu_D);
    [reflexivity|simpl; lia].
Defined.

Section Divisor.
Import Binary32.
Context (LM : Libm float32).

(** X6.  [softmax] never divides by zero on finite scores: every
    exponential [expf(x - max)] is a finite float in [[0, 1]], the one of a
    maximal score is [1.0f] itself, and the divisor, their sum accumulated
    from [0.0f], is a finite float between [1] and the number of scores.  Of
    [expf] this takes that it is [1] at a zero and a float of [[0, 1]] at
    every argument that is not positive. *)
Theorem softmax_divisor_spec data size (m : memory float32) (D : list float32) :
  expf_spec LM →
  m !! data = Some D → 0 < size → size ≤ length D →
  (Z.of_nat size < 2 ^ 24)%Z →
  Forall finite_float (take size D) →
  ∃ mx e s,
    Activation.softmax data size m
    = Ok tt (<[data := ((λ y, f_div y s) <$> e) ++ drop size D]> m)
    ∧ e = (λ x, f_expf (f_sub x mx)) <$> take size D
    ∧ s = foldl f_add f_zero e
    ∧ Forall probability e ∧ b32_one ∈ e
    ∧ is_finite s = true ∧ SFleb b32_one s = true
    ∧ (B2R s <= INR size)%R.
Proof.
  intros Hexp Hd Hpos Hs Hsize Hfin.
  set (l := take size D) in *.
  assert (Hlen : length l = size) by (unfold l; rewrite length_take_le; lia).
  assert (Hne : l ≠ []).
  { intros Hnil. rewrite Hnil in Hlen. simpl in Hlen. lia. }
  destruct (exp_shifted_unit LM Hexp l Hne Hfin) as [Hunit Hone].
  assert (Hles : length (exp_shifted l) = length l)
    by (unfold exp_shifted; by rewrite length_fmap).
  destruct (foldl_add_bounds (exp_shifted l) (S754_zero false) 0)
    as (Hsn & Hsle & _ & Hall & _); try done; try lia.
  { split; [done|by left]. }
  cbv zeta in *. rewrite Z.add_0_l, Hles, Hlen in Hsle.
  exists (max_of l), (exp_shifted l), (float_sum (exp_shifted l)).
  split; [apply softmax_ok; [done|lia|done]|].
  split; [done|]. split; [done|]. split.
  { apply list.Forall_forall. intros q Hq. apply unit_float_probability.
    by apply (proj1 (list.Forall_forall _ _) Hunit). }
  split; [done|].
  pose proof (nonneg_finite _ Hsn) as Hfs.
  split; [apply Hfs|]. split.
  - apply SFleb_B2R; [apply nonneg_finite, nonneg_one|done|].
    by apply Hall.
  - by rewrite INR_IZR_INZ.
Qed.

End Divisor.

(** The divisor of [softmax] on the scores [[1.0, 2.0]]. *)
Lemma softmax_divisor_spec_witness :
  ∃ mx e s,
    Activation.softmax (LM := libm_clamped) 0 2 [Examples.id_X]
    = Ok tt (<[0 := ((λ y, f_div y s) <$> e) ++ drop 2 Examples.id_X]> [Examples.id_X])
    ∧ e = (λ x, f_expf (Libm := libm_clamped) (f_sub x mx)) <$> take 2 Examples.id_X
    ∧ s = foldl f_add f_zero e
    ∧ Forall probability e ∧ Binary32.b32_one ∈ e
    ∧ Binary32.is_finite s = true ∧ SFleb Binary32.b32_one s = true
    ∧ (B2R s <= INR 2)%R.
Proof.
  apply (softmax_divisor_spec libm_clamped 0 2 [Examples.id_X] Examples.id_X
           expf_clamped_spec eq_refl);
    [lia|simpl; lia|done|by repeat constructor].
Defined.

Section Spreading.
Import Binary32.
Context (LM : Libm float32).

(** X7.  One NaN or one [+inf] among the scores makes every result of
    [softmax] a NaN: the exponential of that score is taken at a NaN (of a
    NaN, or of [inf - inf]), the sum is a NaN from there on, and so is every
    quotient.  Of [expf] this takes that it is a NaN at a NaN. *)
Theorem softmax_nonfinite_spreads data size (m : memory float32) (D : list float32) :
  f_expf S754_nan = S754_nan →
  m !! data = Some D → size ≤ length D →
  S754_nan ∈ take size D ∨ S754_infinity false ∈ take size D →
  Activation.softmax data size m
  = Ok tt (<[data := replicate size S754_nan ++ drop size D]> m).
Proof.
  intros Hexp Hd Hs Hin. set (l := take size D) in *.
  assert (Hlen : length l = size) by (unfold l; rewrite length_take_le; lia).
  assert (Hpos : 0 < size).
  { destruct l; [|simpl in Hlen; lia].
    destruct Hin as [Hin|Hin]; by apply elem_of_nil in Hin. }
  rewrite (softmax_ok data size m D Hd ltac:(lia) Hs). fold l.
  rewrite (softmax_list_nan LM l); [by rewrite Hlen|].
  assert (Hnan : S754_nan ∈ l → S754_nan ∈ exp_shifted l).
  { intros Hn. unfold exp_shifted. apply list_elem_of_fmap.
    exists S754_nan. split; [|done]. by rewrite sub_nan_l. }
  destruct (nan_or_none l) as [Hn|Hall]; [by apply Hnan|].
  destruct Hin as [Hin|Hin]; [by apply Hnan|].
  destruct l as [|x0 l0] eqn:Hl; [by apply elem_of_nil in Hin|].
  unfold exp_shifted. apply list_elem_of_fmap.
  exists (S754_infinity false). split; [|done].
  cbn [max_of]. rewrite (running_max_inf x0 l0 Hall Hin). by rewrite <- Hexp.
Qed.

End Spreading.

(** [softmax] of the scores [[1.0, NaN]]. *)
Lemma softmax_nonfinite_spreads_witness :
  Activation.softmax (LM := Binary32.libm_ref) 0 2 [Examples.nan_X]
  = Ok tt (<[0 := replicate 2 S754_nan ++ drop 2 Examples.nan_X]> [Examples.nan_X]).
Proof.
  apply (softmax_nonfinite_spreads Binary32.libm_ref 0 2 [Examples.nan_X]
           Examples.nan_X eq_refl eq_refl);
    [simpl; lia|left; apply elem_of_cons; right; apply elem_of_cons; by left].
Defined.

Section Masking.
Import Binary32.
Context (LM : Libm float32).
Implicit Types (m : memory float32) (nn : NeuralNetwork).

(** X8.  A NaN in the input does not reach the output of [predict]: every
    sum of layer 1 is a NaN, [relu] puts [0.0f] in place of each ([NaN > 0]
    is false), and the output is the softmax of layer 2 on a hidden layer of
    zeros, the same whatever the other inputs are. *)
Theorem predict_nan_input_masked nn input output m
    (W1 B1 W2 B2 Hb X O : list float32) i :
  wired nn m W1 B1 W2 B2 Hb → call_buffers nn m input output X O →
  chained nn →
  i < layer1_input_size_ nn → X !! i = Some S754_nan →
  ∃ m' h p,
    Network.predict nn input output m = Ok tt m'
    ∧ h = replicate (layer1_output_size_ nn) b32_zero
    ∧ p = softmax_list
            (dense W2 B2 h (layer2_input_size_ nn) (layer2_output_size_ nn))
    ∧ m' !! layer1_output_ nn = Some (h ++ drop (layer1_output_size_ nn) Hb)
    ∧ m' !! output = Some (p ++ drop (layer2_output_size_ nn) O).
Proof.
  intros Hw Hc Hch Hi HX. eexists _, _, _.
  split; [by eapply predict_ok|]. split; [done|]. split; [done|].
  split.
  - rewrite (lookup_buffer_after nn input output m W1 B1 W2 B2 Hb X O Hw Hc).
    unfold buffer_after. by rewrite (hidden_nan_input _ _ _ _ _ i).
  - rewrite (lookup_output_after nn input output m W1 B1 W2 B2 Hb X O Hw Hc).
    rewrite output_after_chained by done. unfold forward.
    rewrite (hidden_nan_input _ _ _ _ _ i) by done.
    unfold chained in Hch. by rewrite Hch.
Qed.

End Masking.

(** The identity network on the input [[1.0, NaN]]. *)
Lemma predict_nan_input_masked_witness :
  ∃ (m' : memory Binary32.float32) h p,
    Network.predict (LM := Binary32.libm_ref) Examples.id_nn 4 5 Examples.nan_mem
    = Ok tt m'
    ∧ h = replicate 2 Binary32.b32_zero
    ∧ p = softmax_list (LM := Binary32.libm_ref)
            (dense Examples.id_W Examples.id_B h 2 2)
    ∧ m' !! 6 = Some (h ++ drop 2 Examples.id_Hb)
    ∧ m' !! 5 = Some (p ++ drop 2 Examples.id_O).
Proof.
  exact (predict_nan_input_masked Binary32.libm_ref Examples.id_nn 4 5
           Examples.nan_mem Examples.id_W Examples.id_B Examples.id_W
           Examples.id_B Examples.id_Hb Examples.nan_X Examples.id_O 1
           nan_wired nan_call eq_refl (le_n 2) eq_refl).
Defined.

Section Commuting.
Import Binary32.


End Commuting.

